(** * indiekit support utilities: cache-aside resolution and document rendering

    A shallow embedding of [packages/support/index.js]:
    [getData], [formatDate], [render] and [renderDocument]. *)

From Stdlib Require Import Ascii String List Bool ZArith.
From stdpp Require Import gmap strings list fin_maps pretty.

Set Warnings "-register-all".

(** ** JavaScript values and exceptions *)

(** What a promise of the cache layer resolves to: a string, or [undefined]. *)
Inductive Data :=
| Undefined
| Str (s : string).

(** JavaScript truthiness, as used by [if (fileData)] and [if (pubData)]. *)
Definition truthy (d : Data) : bool :=
  match d with
  | Undefined => false
  | Str EmptyString => false
  | Str (String _ _) => true
  end.

(** Thrown values. The source itself only throws [new Error(error.message)],
    and [FetchError] and [PersistError] record at which site; the other
    constructors are what the runtime and the libraries throw. The rejection
    of an fs call is kept by its error code, which stands for the message
    the runtime gives it. *)
Inductive Exn :=
| SystemError (code : string)    (* rejection of an fs call: its error code *)
| SourceError (msg : string)     (* rejection of publisher.readFile *)
| FetchError (msg : string)      (* new Error(error.message), index.js:125 *)
| PersistError (msg : string)    (* new Error(error.message), index.js:132 and 137 *)
| TypeError (msg : string)       (* property write on something that is no object *)
| JsError (msg : string)         (* a plain Error thrown by a library *)
| YAMLException (msg : string)   (* raised by the YAML loader of the frontmatter parser *)
| TemplateError (msg : string).  (* raised by the template engine for a template *)

(** [error.message] *)
Definition message (e : Exn) : string :=
  match e with
  | SystemError m | SourceError m | FetchError m | PersistError m
  | TypeError m | JsError m | YAMLException m | TemplateError m => m
  end.

(** ** Paths ([path.join], [path.dirname]) *)

(** A normalised path is its list of segments, read from the root. Paths
    are taken as absolute: a [..] at the root stays at the root, and a
    separator at the end of a path is not kept. *)
Abbreviation Path := (list string).

Fixpoint split_on (c : ascii) (s : string) : list string :=
  match s with
  | EmptyString => [EmptyString]
  | String a s' =>
      if Ascii.eqb a c then EmptyString :: split_on c s'
      else match split_on c s' with
           | [] => [String a EmptyString]
           | w :: ws => String a w :: ws
           end
  end.

(** One step of normalisation; [acc] holds the segments seen so far, last first. *)
Definition push_segment (acc : Path) (seg : string) : Path :=
  if String.eqb seg EmptyString || String.eqb seg "." then acc
  else if String.eqb seg ".." then List.tl acc
  else seg :: acc.

Definition normalize (segs : list string) : Path :=
  List.rev (List.fold_left push_segment segs []).

(** [path.join(a, b)] *)
Definition path_join (a b : string) : Path :=
  normalize (split_on "/" a ++ split_on "/" b).

(** [path.dirname(p)] *)
Definition path_dirname (p : Path) : Path := List.removelast p.

(** ** The local filesystem ([fs], [fs.promises]) *)

Inductive Node :=
| File (content : string)
| Dir.

(** A filesystem maps normalised paths to nodes; the root is always a
    directory. The calls below fail for what the tree itself shows (a
    missing entry, a file or a directory in the way); failures that come
    from outside the tree, such as permissions or a full disk, are not
    modelled. *)
Abbreviation FS := (gmap (list string) Node).

Definition is_dir (fs : FS) (p : Path) : bool :=
  match p with
  | [] => true
  | _ => match fs !! p with Some Dir => true | _ => false end
  end.

(** [readFile(p, {encoding: 'utf-8'})]: the content, or an error code. *)
Definition fs_readFile (p : Path) (fs : FS) : string + string :=
  if is_dir fs p then inl "EISDIR"
  else match fs !! p with
       | Some (File c) => inr c
       | _ => inl "ENOENT"
       end.

(** [mkdir(p, {recursive: true})]: creates every missing prefix of [p];
    existing directories are kept, a file in the way is an error. *)
Fixpoint mkdir_from (pre rest : Path) (fs : FS) : string + FS :=
  match rest with
  | [] => inr fs
  | seg :: rest' =>
      let p := pre ++ [seg] in
      match fs !! p with
      | Some (File _) => inl (match rest' with [] => "EEXIST" | _ => "ENOTDIR" end)
      | Some Dir => mkdir_from p rest' fs
      | None => mkdir_from p rest' (<[p := Dir]> fs)
      end
  end.

Definition fs_mkdir_recursive (p : Path) (fs : FS) : string + FS :=
  mkdir_from [] p fs.

(** [writeFile(p, content)]: the parent must be a directory and [p] must not be one. *)
Definition fs_writeFile (p : Path) (content : string) (fs : FS) : string + FS :=
  if negb (is_dir fs (path_dirname p)) then inl "ENOENT"
  else if is_dir fs p then inl "EISDIR"
  else inr (<[p := File content]> fs).

(** The value [getData] holds in [fileData] after the local read: the
    content, or [undefined] when the read failed. *)
Definition cached (p : Path) (fs : FS) : Data :=
  match fs_readFile p fs with
  | inr c => Str c
  | inl _ => Undefined
  end.

(** ** The remote source *)

(** The capability passed as [publisher]: [readFile(basepath)] resolves with
    data or rejects with an error message, and may change the source's state. *)
Record Publisher := {
  pub_state : Type;
  pub_readFile : string -> pub_state -> (string + Data) * pub_state
}.

(** ** [getData] *)

Section Cache.
Context (publisher : Publisher).

(** Everything [getData] can read or change. [w_reads] logs the identifiers
    passed to [publisher.readFile], oldest first. *)
Record World := {
  w_fs : FS;
  w_pub : pub_state publisher;
  w_reads : list string
}.

(** Awaited computations: a state transformer that resolves or rejects. *)
Definition Async (A : Type) : Type := World -> (Exn + A) * World.

Definition resolve {A} (a : A) : Async A := fun w => (inr a, w).
Definition reject {A} (e : Exn) : Async A := fun w => (inl e, w).

Definition await {A B} (m : Async A) (k : A -> Async B) : Async B :=
  fun w => match m w with
           | (inr a, w') => k a w'
           | (inl e, w') => (inl e, w')
           end.

(** [m.catch(h)] *)
Definition catch {A} (m : Async A) (h : Exn -> Async A) : Async A :=
  fun w => match m w with
           | (inr a, w') => (inr a, w')
           | (inl e, w') => h e w'
           end.

Definition fsp_readFile (p : Path) : Async Data :=
  fun w => match fs_readFile p (w_fs w) with
           | inr c => (inr (Str c), w)
           | inl code => (inl (SystemError code), w)
           end.

Definition fsp_mkdir (p : Path) : Async Data :=
  fun w => match fs_mkdir_recursive p (w_fs w) with
           | inr fs' => (inr Undefined,
                         {| w_fs := fs'; w_pub := w_pub w; w_reads := w_reads w |})
           | inl code => (inl (SystemError code), w)
           end.

(** [fsp.writeFile] fulfils with [undefined]. *)
Definition fsp_writeFile (p : Path) (d : Data) : Async Data :=
  fun w => match d with
           | Undefined => (inl (TypeError "ERR_INVALID_ARG_TYPE"), w)
           | Str c =>
               match fs_writeFile p c (w_fs w) with
               | inr fs' => (inr Undefined,
                             {| w_fs := fs'; w_pub := w_pub w; w_reads := w_reads w |})
               | inl code => (inl (SystemError code), w)
               end
           end.

Definition publisher_readFile (basepath : string) : Async Data :=
  fun w =>
    let '(out, ps) := pub_readFile publisher basepath (w_pub w) in
    let w' := {| w_fs := w_fs w; w_pub := ps; w_reads := w_reads w ++ [basepath] |} in
    match out with
    | inr d => (inr d, w')
    | inl msg => (inl (SourceError msg), w')
    end.

Notation "x <- m ;; k" := (await m (fun x => k))
  (at level 100, m at next level, right associativity).

(** index.js:112-143 *)
Definition getData (basepath tmpdir : string) : Async Data :=
  let filePath := path_join tmpdir basepath in
  fileData <- catch (fsp_readFile filePath) (fun _ => resolve Undefined) ;;
  if truthy fileData then
    resolve fileData
  else
    pubData <- catch (publisher_readFile basepath)
                     (fun error => reject (FetchError (message error))) ;;
    if truthy pubData then
      _ <- catch (fsp_mkdir (path_dirname filePath))
                 (fun error => reject (PersistError (message error))) ;;
      data <- catch (fsp_writeFile filePath pubData)
                    (fun error => reject (PersistError (message error))) ;;
      resolve data
    else
      resolve Undefined.

End Cache.

Arguments w_fs {publisher} _.
Arguments w_pub {publisher} _.
Arguments w_reads {publisher} _.

(** A source that knows two files and rejects everything else. *)
Definition demo_publisher : Publisher := {|
  pub_state := unit;
  pub_readFile := fun basepath st =>
    if String.eqb basepath "a/b.txt" then (inr (Str "hello"), st)
    else if String.eqb basepath "empty.txt" then (inr (Str EmptyString), st)
    else (inl "Not Found", st)
|}.

(** An empty cache directory [/tmp/cache]. *)
Definition empty_cache : FS :=
  <[ ["tmp"; "cache"] := Dir ]> (<[ ["tmp"] := Dir ]> ∅).

Definition demo_world (fs : FS) : World demo_publisher :=
  Build_World demo_publisher fs tt [].

(** ** Template values *)

(** The values a rendering context or a frontmatter block can hold.
    [VUndefined] stands for both [undefined] and [null]. *)
Inductive Value :=
| VUndefined
| VString (s : string)
| VObject (props : gmap string Value).

(** Pure steps that may throw. *)
Notation "'let?' x := m 'in' k" :=
  (match m with inl e => inl e | inr x => k end)
  (at level 10, x name, m at level 100, k at level 200, only parsing).

(** ** String helpers *)

Definition newline : string := String "010" EmptyString.

Definition string_rev (s : string) : string :=
  string_of_list_ascii (List.rev (list_ascii_of_string s)).

(** Space, tab, line feed and carriage return. *)
Definition is_space (c : ascii) : bool :=
  Ascii.eqb c " " || Ascii.eqb c "009" || Ascii.eqb c "010" || Ascii.eqb c "013".

Fixpoint ltrim (s : string) : string :=
  match s with
  | String c s' => if is_space c then ltrim s' else s
  | EmptyString => EmptyString
  end.

Definition rtrim (s : string) : string := string_rev (ltrim (string_rev s)).

Definition trim (s : string) : string := rtrim (ltrim s).

Definition is_blank (l : string) : bool := String.eqb (trim l) EmptyString.

(** Splits at the first occurrence of [c]. *)
Fixpoint break_at (c : ascii) (s : string) : option (string * string) :=
  match s with
  | EmptyString => None
  | String a s' =>
      if Ascii.eqb a c then Some (EmptyString, s')
      else match break_at c s' with
           | Some (x, y) => Some (String a x, y)
           | None => None
           end
  end.

(** The text of a single-quoted literal. *)
Definition unquote (s : string) : option string :=
  match s with
  | String "'" rest =>
      match string_rev rest with
      | String "'" inner => Some (string_rev inner)
      | _ => None
      end
  | _ => None
  end.

(** ** Dates ([luxon]) *)

(** The date library is not part of the sources. A date-time of the library
    is an instant, counted in milliseconds from the epoch, together with the
    zone it is expressed in, here the offset of that zone from UTC in
    minutes: the fields a pattern prints are those of the instant in that
    zone. *)
Record DateTime := {
  ts : Z;
  offset : Z
}.

(** The zone ['utc']. *)
Definition utc : Z := 0%Z.

(** What the library and the machine it runs on provide: the instant the
    system clock reads and the offset of the system zone at that instant;
    the ISO-8601 text of a date-time ([toISO], which is also what a
    date-time turns into when it is read as a string); the ISO-8601
    patterns, which give the instant a text denotes, a text without an
    offset of its own being read in the zone that is given, and [None] for
    a text no pattern matches; and the formatter driven by a token pattern
    and a locale. The ISO text of the clock's reading carries its offset, so
    it denotes the instant it was printed from in whatever zone it is read;
    the library reads back every valid date-time in this way, and the law
    is asked for the clock's reading only. *)
Class Luxon := {
  now : Z;
  local_offset : Z;
  toISO : DateTime -> string;
  parseISO : string -> Z -> option Z;
  toFormat : DateTime -> string -> string -> string;
  local_round_trip :
    forall zone, parseISO (toISO {| ts := now; offset := local_offset |}) zone = Some now
}.

Section Dates.
Context `{Luxon}.

(** [DateTime.local()]: the instant of the system clock, in the system zone. *)
Definition DateTime_local : DateTime := {| ts := now; offset := local_offset |}.

(** [DateTime.fromISO(date, {locale, zone})]. The library matches its
    argument against the ISO-8601 patterns as text, so a [DateTime] is taken
    by its ISO text. The instant that is read is expressed in [zone]. What
    does not parse gives an invalid date-time, here [None]; nothing is
    thrown. *)
Definition DateTime_fromISO (date : DateTime + Value) (zone : Z) : option DateTime :=
  let text := match date with
              | inl dt => Some (toISO dt)
              | inr (VString text) => Some text
              | inr _ => None
              end in
  match text with
  | Some text =>
      match parseISO text zone with
      | Some instant => Some {| ts := instant; offset := zone |}
      | None => None
      end
  | None => None
  end.

(** [dt.toFormat(format)], with the locale given to [fromISO]. An invalid
    date-time formats as the library's fixed marker. *)
Definition DateTime_toFormat (dt : option DateTime) (format locale : string) : string :=
  match dt with
  | Some d => toFormat d format locale
  | None => "Invalid DateTime"
  end.

(** Whether [parseISO] accepts the value as a timestamp. *)
Definition valid_iso (v : Value) : bool :=
  match v with
  | VString text => match parseISO text utc with Some _ => true | None => false end
  | _ => false
  end.

(** [str === 'now'] *)
Definition is_now (str : Value) : bool :=
  match str with
  | VString s => String.eqb s "now"
  | _ => false
  end.

(** index.js:92-101; [locale = None] is an omitted third argument. *)
Definition formatDate (str : Value) (format : string) (locale : option string)
  : string :=
  let locale := match locale with Some l => l | None => "en-GB" end in
  let date := if is_now str then inl DateTime_local else inr str in
  let datetime := DateTime_toFormat (DateTime_fromISO date utc) format locale in
  datetime.

End Dates.

(** ** Frontmatter ([front-matter]) *)

Record Parsed := {
  attributes : gmap string Value;
  body : string
}.

Definition marker : string := "---".

Definition lines (s : string) : list string := split_on "010" s.
Definition unlines (ls : list string) : string := String.concat newline ls.

(** Whether [pat] occurs in [s]. *)
Fixpoint contains (pat s : string) : bool :=
  String.prefix pat s ||
  match s with
  | EmptyString => false
  | String _ s' => contains pat s'
  end.

(** A line that opens a block: one of the two delimiters, alone on its line. *)
Definition is_opening (l : string) : bool :=
  String.eqb l marker || String.eqb l "= yaml =".

(** A line that closes the block opened by [opening]: the same delimiter or
    three dots, possibly followed by white space. *)
Definition is_closing (opening l : string) : bool :=
  String.eqb (rtrim l) opening || String.eqb (rtrim l) "...".

(** A line that could close a block of either delimiter. *)
Definition is_delimiter_line (l : string) : bool :=
  is_closing marker l || is_closing "= yaml =" l.

(** The lines before the first closing line, and those after it. *)
Fixpoint split_at_closing (opening : string) (ls : list string)
  : option (list string * list string) :=
  match ls with
  | [] => None
  | l :: ls' =>
      if is_closing opening l then Some ([], ls')
      else match split_at_closing opening ls' with
           | Some (block, rest) => Some (l :: block, rest)
           | None => None
           end
  end.

(** The first block of the text: the lines before its opening line, the
    lines of the block, and the lines after its closing line. *)
Fixpoint find_block (ls : list string)
  : option (list string * list string * list string) :=
  match ls with
  | [] => None
  | l :: ls' =>
      match (if is_opening l then split_at_closing l ls' else None) with
      | Some (block, after) => Some ([], block, after)
      | None =>
          match find_block ls' with
          | Some (before, block, after) => Some (l :: before, block, after)
          | None => None
          end
      end
  end.

Fixpoint drop_blank (ls : list string) : list string :=
  match ls with
  | l :: ls' => if is_blank l then drop_blank ls' else ls
  | [] => []
  end.

(** The text left when the block is cut out. *)
Definition without_block (before after : list string) : string :=
  String.concat EmptyString (List.map (fun l => l +:+ newline) before)
  +:+ unlines (drop_blank after).

(** One [key: value] entry of a flat mapping; [key:] alone is a null value. *)
Definition yaml_entry (l : string) : option (string * Value) :=
  match break_at ":" l with
  | Some (key, EmptyString) => Some (trim key, VUndefined)
  | Some (key, String " " value) => Some (trim key, VString (trim value))
  | _ => None
  end.

(** The YAML loader, for blocks that are flat mappings of plain scalars;
    scalars are kept as text. *)
Fixpoint yaml (block : list string) (attrs : gmap string Value)
  : Exn + gmap string Value :=
  match block with
  | [] => inr attrs
  | l :: block' =>
      if is_blank l then yaml block' attrs
      else match yaml_entry l with
           | Some (key, value) => yaml block' (<[key := value]> attrs)
           | None => inl (YAMLException "can not read a block mapping entry")
           end
  end.

(** The [front-matter] package is not part of the sources. It looks at a text
    whose first line holds a delimiter and matches a pattern against it: an
    opening delimiter alone on its line, the block, a closing line, and the
    white space after it. A text the pattern does not match, be it because it
    has no opening line or because the block is never closed, is returned
    whole as the body, with empty attributes. Otherwise the block is loaded
    as YAML and the body is the text without the match, that is without the
    block, its delimiters and the blank lines that follow it. *)
Definition frontmatter (raw : string) : Exn + Parsed :=
  match lines raw with
  | first :: _ =>
      if contains marker first || contains "= yaml =" first then
        match find_block (lines raw) with
        | Some (before, block, after) =>
            let? attrs := yaml block ∅ in
            inr {| attributes := attrs; body := without_block before after |}
        | None => inr {| attributes := ∅; body := raw |}
        end
      else inr {| attributes := ∅; body := raw |}
  | [] => inr {| attributes := ∅; body := raw |}
  end.

(** ** Templates ([nunjucks]) *)

(** A filter receives the piped value and its literal arguments. *)
Definition Filter : Type := Value -> list string -> Exn + Value.

(** An environment is its table of registered filters, newest first. *)
Abbreviation Environment := (list (string * Filter)).

Definition new_Environment : Environment := [].

Definition addFilter (name : string) (f : Filter) (env : Environment) : Environment :=
  (name, f) :: env.

Fixpoint getFilter (name : string) (env : Environment) : option Filter :=
  match env with
  | [] => None
  | (n, f) :: env' => if String.eqb n name then Some f else getFilter name env'
  end.

(** Member access along a dotted path; a missing member is [undefined]. *)
Fixpoint lookup_path (path : list string) (v : Value) : Value :=
  match path with
  | [] => v
  | key :: path' =>
      match v with
      | VObject props =>
          match props !! key with
          | Some v' => lookup_path path' v'
          | None => VUndefined
          end
      | _ => VUndefined
      end
  end.

(** The environment escapes its output by default. *)
Fixpoint escape (s : string) : string :=
  match s with
  | EmptyString => EmptyString
  | String c s' =>
      (if Ascii.eqb c "&" then "&amp;"
       else if Ascii.eqb c "<" then "&lt;"
       else if Ascii.eqb c ">" then "&gt;"
       else if Ascii.eqb c "034" then "&quot;"
       else if Ascii.eqb c "'" then "&#39;"
       else String c EmptyString) +:+ escape s'
  end.

(** How a value is written into the output: [undefined] is suppressed. *)
Definition output (v : Value) : string :=
  match v with
  | VUndefined => EmptyString
  | VString s => escape s
  | VObject _ => "[object Object]"
  end.

(** A template is a sequence of literal text and [{{ ... }}] output tags. *)
Inductive Piece :=
| Text (s : string)
| Output (expr : string).

Definition cons_char (a : ascii) (ps : list Piece) : list Piece :=
  match ps with
  | Text t :: ps' => Text (String a t) :: ps'
  | _ => Text (String a EmptyString) :: ps
  end.

(** [tag = None] while reading text, [Some e] inside a tag whose
    expression read so far is [e] (last character first). *)
Fixpoint tokenize (s : string) (tag : option string) : Exn + list Piece :=
  match tag with
  | None =>
      match s with
      | EmptyString => inr []
      | String "{" (String "{" rest) => tokenize rest (Some EmptyString)
      | String "{" (String "%" _) => inl (TemplateError "block tags are not modelled")
      | String a rest => let? ps := tokenize rest None in inr (cons_char a ps)
      end
  | Some e =>
      match s with
      | EmptyString => inl (TemplateError "expected variable end")
      | String "}" (String "}" rest) =>
          let? ps := tokenize rest None in inr (Output (string_rev e) :: ps)
      | String a rest => tokenize rest (Some (String a e))
      end
  end.

(** The operand of an output tag: a quoted literal or a dotted variable path. *)
Definition eval_operand (context : gmap string Value) (src : string) : Exn + Value :=
  let s := trim src in
  if String.eqb s EmptyString then inl (TemplateError "unexpected end of expression")
  else match unquote s with
       | Some literal => inr (VString literal)
       | None => inr (lookup_path (split_on "." s) (VObject context))
       end.

Fixpoint unquote_all (args : list string) : Exn + list string :=
  match args with
  | [] => inr []
  | a :: args' =>
      match unquote (trim a) with
      | Some literal => let? ls := unquote_all args' in inr (literal :: ls)
      | None => inl (TemplateError "expected a quoted argument")
      end
  end.

(** [name] or [name('a', 'b')] *)
Definition parse_call (src : string) : Exn + (string * list string) :=
  let s := trim src in
  match break_at "(" s with
  | None => inr (s, [])
  | Some (name, rest) =>
      match string_rev rest with
      | String ")" inner =>
          let inner := string_rev inner in
          if is_blank inner then inr (trim name, [])
          else let? args := unquote_all (split_on "," inner) in inr (trim name, args)
      | _ => inl (TemplateError "expected closing parenthesis")
      end
  end.

Fixpoint apply_filters (env : Environment) (calls : list string) (v : Value)
  : Exn + Value :=
  match calls with
  | [] => inr v
  | call :: calls' =>
      let? parsed := parse_call call in
      match getFilter (fst parsed) env with
      | Some f => let? v' := f v (snd parsed) in apply_filters env calls' v'
      | None => inl (TemplateError ("filter not found: " +:+ fst parsed))
      end
  end.

Definition eval_expr (env : Environment) (context : gmap string Value) (expr : string)
  : Exn + Value :=
  match split_on "|" expr with
  | operand :: calls =>
      let? v := eval_operand context operand in apply_filters env calls v
  | [] => inl (TemplateError "unexpected end of expression")
  end.

Fixpoint eval_pieces (env : Environment) (context : gmap string Value)
    (ps : list Piece) : Exn + string :=
  match ps with
  | [] => inr EmptyString
  | Text t :: ps' => let? out := eval_pieces env context ps' in inr (t +:+ out)
  | Output e :: ps' =>
      let? v := eval_expr env context e in
      let? out := eval_pieces env context ps' in
      inr (output v +:+ out)
  end.

(** The template engine is not part of the sources. [env.renderString(src,
    context)] builds a template from [src] and renders it. The template
    constructor accepts a string (or an object describing a source) and
    throws for anything else, [undefined] included. A string is compiled,
    where a syntax error is a TemplateError, and rendered against the
    context in one pass; a reference to an undefined variable is written as
    empty text. Of the template language, text and
    [{{ operand | filter('arg') }}] output tags are modelled. *)
Definition renderString (env : Environment) (src : Value) (context : gmap string Value)
  : Exn + string :=
  match src with
  | VString s =>
      let? ps := tokenize s None in eval_pieces env context ps
  | VUndefined =>
      inl (JsError "src must be a string or an object describing the source")
  | VObject _ =>
      inl (JsError "Unexpected template object type undefined; expected 'code', or 'string'")
  end.

(** ** [render] and [renderDocument] *)

Record Document := {
  doc_body : string;
  doc_page : gmap string Value;
  doc_title : string
}.

(** Objects live in a store and are passed by reference. *)
Abbreviation Heap := (gmap nat (gmap string Value)).

Section Rendering.
Context `{Luxon}.

(** [formatDate] called as a filter: [value | date(format, locale)]. *)
Definition date_filter : Filter :=
  fun value args =>
    let format := match args with f :: _ => f | [] => EmptyString end in
    let locale := match args with _ :: l :: _ => Some l | _ => None end in
    inr (VString (formatDate value format locale)).

(** index.js:153-159 *)
Definition render (template : Value) (context : gmap string Value) : Exn + string :=
  let env := addFilter "date" date_filter new_Environment in
  renderString env template context.

(** [obj.title] *)
Definition get_prop (key : string) (obj : gmap string Value) : Value :=
  match obj !! key with
  | Some v => v
  | None => VUndefined
  end.

(** index.js:169-188. [context] is a reference into the heap; the heap
    that is returned is the one the caller sees afterwards. *)
Definition renderDocument (file : Path) (context : nat) (fs : FS) (h : Heap)
  : (Exn + Document) * Heap :=
  match fs_readFile file fs with
  | inl code => (inl (SystemError code), h)
  | inr text =>
      match frontmatter text with
      | inl e => (inl e, h)
      | inr document =>
          match h !! context with
          | None => (inl (TypeError "Cannot set property 'page' of undefined"), h)
          | Some obj =>
              let h' := <[context := <["page" := VObject (attributes document)]> obj]> h in
              let result :=
                match h' !! context with
                | None => inl (TypeError "context is not an object")
                | Some ctx =>
                    let? body := render (VString (body document)) ctx in
                    let? title := render (get_prop "title" (attributes document)) ctx in
                    inr {| doc_body := body;
                           doc_page := attributes document;
                           doc_title := title |}
                end in
              (result, h')
          end
      end
  end.

End Rendering.

(** ** A small calendar for running the model *)

(** The fields of a date-time on the wall clock of its zone. *)
Record Stamp := {
  year : nat; month : nat; day : nat;
  hour : nat; minute : nat; second : nat; millisecond : nat
}.

Definition digit_of (c : ascii) : option nat :=
  let n := nat_of_ascii c in
  if (48 <=? n) && (n <=? 57) then Some (n - 48) else None.

Fixpoint number_from (acc : nat) (s : string) : option nat :=
  match s with
  | EmptyString => Some acc
  | String c s' =>
      match digit_of c with
      | Some d => number_from (10 * acc + d) s'
      | None => None
      end
  end.

(** A field of exactly [width] decimal digits. *)
Definition field (width : nat) (s : string) : option nat :=
  if String.length s =? width then number_from 0 s else None.

Definition leap (y : nat) : bool :=
  ((y mod 4 =? 0) && negb (y mod 100 =? 0)) || (y mod 400 =? 0).

Definition days_in (y m : nat) : nat :=
  match m with
  | 2 => if leap y then 29 else 28
  | 4 | 6 | 9 | 11 => 30
  | _ => 31
  end.

Definition parse_date (s : string) : option (nat * nat * nat) :=
  match split_on "-" s with
  | [y; m; d] =>
      match field 4 y, field 2 m, field 2 d with
      | Some y, Some m, Some d =>
          if (1 <=? m) && (m <=? 12) && (1 <=? d) && (d <=? days_in y m)
          then Some (y, m, d) else None
      | _, _, _ => None
      end
  | _ => None
  end.

(** [HH:MM:SS], optionally followed by [.mmm]. *)
Definition parse_time (s : string) : option (nat * nat * nat * nat) :=
  let '(s, millis) := match break_at "." s with
                      | Some (t, f) => (t, field 3 f)
                      | None => (s, Some 0)
                      end in
  match split_on ":" s, millis with
  | [h; m; sec], Some ms =>
      match field 2 h, field 2 m, field 2 sec with
      | Some h, Some m, Some sec =>
          if (h <? 24) && (m <? 60) && (sec <? 60) then Some (h, m, sec, ms) else None
      | _, _, _ => None
      end
  | _, _ => None
  end.

(** [HH:MM] as minutes. *)
Definition parse_offset (s : string) : option Z :=
  match split_on ":" s with
  | [h; m] =>
      match field 2 h, field 2 m with
      | Some h, Some m =>
          if (h <? 24) && (m <? 60) then Some (Z.of_nat (60 * h + m)) else None
      | _, _ => None
      end
  | _ => None
  end.

(** A time and the offset it ends with, if any: [Z], [+HH:MM] or [-HH:MM]. *)
Definition split_offset (t : string) : option (string * option Z) :=
  match string_rev t with
  | String "Z" r => Some (string_rev r, Some 0%Z)
  | _ =>
      match break_at "+" t, break_at "-" t with
      | Some (time, off), _ =>
          match parse_offset off with
          | Some o => Some (time, Some o)
          | None => None
          end
      | None, Some (time, off) =>
          match parse_offset off with
          | Some o => Some (time, Some (- o)%Z)
          | None => None
          end
      | None, None => Some (t, None)
      end
  end.

(** Calendar dates [YYYY-MM-DD], optionally followed by [T], a time and an
    offset: the fields that are written and the offset, if one is. *)
Definition stamp_of_iso (s : string) : option (Stamp * option Z) :=
  match split_on "T" s with
  | [d] =>
      match parse_date d with
      | Some (y, m, d) =>
          Some ({| year := y; month := m; day := d;
                   hour := 0; minute := 0; second := 0; millisecond := 0 |}, None)
      | None => None
      end
  | [d; t] =>
      match parse_date d, split_offset t with
      | Some (y, m, d), Some (time, off) =>
          match parse_time time with
          | Some (h, mi, sec, ms) =>
              Some ({| year := y; month := m; day := d;
                       hour := h; minute := mi; second := sec; millisecond := ms |}, off)
          | None => None
          end
      | _, _ => None
      end
  | _ => None
  end.

(** The number of the day of a date, counted from 1 January 1970. *)
Definition days_from_civil (y m d : Z) : Z :=
  (let y := if m <=? 2 then y - 1 else y in
   let era := y / 400 in
   let yoe := y - era * 400 in
   let mp := (m + 9) mod 12 in
   let doy := (153 * mp + 2) / 5 + d - 1 in
   let doe := yoe * 365 + yoe / 4 - yoe / 100 + doy in
   era * 146097 + doe - 719468)%Z.

(** The date of a day counted from 1 January 1970. *)
Definition civil_from_days (z : Z) : Z * Z * Z :=
  (let z := z + 719468 in
   let era := z / 146097 in
   let doe := z - era * 146097 in
   let yoe := (doe - doe / 1460 + doe / 36524 - doe / 146096) / 365 in
   let doy := doe - (365 * yoe + yoe / 4 - yoe / 100) in
   let mp := (5 * doy + 2) / 153 in
   let d := doy - (153 * mp + 2) / 5 + 1 in
   let m := if mp <? 10 then mp + 3 else mp - 9 in
   let y := yoe + era * 400 in
   (if m <=? 2 then y + 1 else y, m, d))%Z.

(** The instant at which a wall clock at UTC shows the fields. *)
Definition stamp_ts (s : Stamp) : Z :=
  let days := days_from_civil (Z.of_nat (year s)) (Z.of_nat (month s)) (Z.of_nat (day s)) in
  (((days * 24 + Z.of_nat (hour s)) * 60 + Z.of_nat (minute s)) * 60000
   + Z.of_nat (second s) * 1000 + Z.of_nat (millisecond s))%Z.

(** The fields of a date-time in its zone. *)
Definition stamp_of (dt : DateTime) : Stamp :=
  let wall := (ts dt + offset dt * 60000)%Z in
  let '(y, m, d) := civil_from_days (wall / 86400000)%Z in
  let ms := (wall mod 86400000)%Z in
  {| year := Z.to_nat y; month := Z.to_nat m; day := Z.to_nat d;
     hour := Z.to_nat (ms / 3600000);
     minute := Z.to_nat ((ms / 60000) mod 60);
     second := Z.to_nat ((ms / 1000) mod 60);
     millisecond := Z.to_nat (ms mod 1000) |}.

Definition digit_char (n : nat) : ascii := ascii_of_nat (48 + n mod 10).

Definition pad2 (n : nat) (rest : string) : string :=
  String (digit_char (n / 10)) (String (digit_char n) rest).

Definition pad3 (n : nat) (rest : string) : string :=
  String (digit_char (n / 100)) (pad2 n rest).

Definition pad4 (n : nat) (rest : string) : string :=
  String (digit_char (n / 1000)) (pad3 n rest).

(** The numeric tokens [yyyy], [MM], [dd], [HH], [mm], [ss] and [SSS]; any
    other character stands for itself. *)
Fixpoint stamp_format (dt : Stamp) (format : string) : string :=
  match format with
  | String "y" (String "y" (String "y" (String "y" rest))) =>
      pad4 (year dt) (stamp_format dt rest)
  | String "M" (String "M" rest) => pad2 (month dt) (stamp_format dt rest)
  | String "d" (String "d" rest) => pad2 (day dt) (stamp_format dt rest)
  | String "H" (String "H" rest) => pad2 (hour dt) (stamp_format dt rest)
  | String "m" (String "m" rest) => pad2 (minute dt) (stamp_format dt rest)
  | String "s" (String "s" rest) => pad2 (second dt) (stamp_format dt rest)
  | String "S" (String "S" (String "S" rest)) =>
      pad3 (millisecond dt) (stamp_format dt rest)
  | String a rest => String a (stamp_format dt rest)
  | EmptyString => EmptyString
  end.

(** [+HH:MM] or [-HH:MM], as for a date-time in the system zone. *)
Definition offset_text (o : Z) : string :=
  let minutes := Z.to_nat (Z.abs o) in
  String (if (o <? 0)%Z then "-" else "+")%char
    (pad2 (minutes / 60) (String ":" (pad2 (minutes mod 60) EmptyString))).

Definition calendar_toISO (dt : DateTime) : string :=
  stamp_format (stamp_of dt) "yyyy-MM-ddTHH:mm:ss.SSS" +:+ offset_text (offset dt).

Definition calendar_parseISO (text : string) (zone : Z) : option Z :=
  match stamp_of_iso text with
  | Some (s, off) =>
      Some (stamp_ts s - (match off with Some o => o | None => zone end) * 60000)%Z
  | None => None
  end.

Definition calendar_toFormat (dt : DateTime) (format locale : string) : string :=
  stamp_format (stamp_of dt) format.

(** 2 November 2026, 14:50:00 at UTC. *)
Definition calendar_now : Z :=
  stamp_ts {| year := 2026; month := 11; day := 2;
              hour := 14; minute := 50; second := 0; millisecond := 0 |}.

(** A machine at that instant whose zone coincides with UTC. *)
Definition calendar : Luxon := {|
  now := calendar_now;
  local_offset := 0%Z;
  toISO := calendar_toISO;
  parseISO := calendar_parseISO;
  toFormat := calendar_toFormat;
  local_round_trip := ltac:(intros zone; vm_compute; reflexivity)
|}.

(** A machine at the same instant whose zone is five hours behind UTC: its
    wall clock shows 09:50. *)
Definition calendar_west : Luxon := {|
  now := calendar_now;
  local_offset := (-300)%Z;
  toISO := calendar_toISO;
  parseISO := calendar_parseISO;
  toFormat := calendar_toFormat;
  local_round_trip := ltac:(intros zone; vm_compute; reflexivity)
|}.

(** The document of the frontmatter round trip, stored as [/site/hi.md]. *)
Definition hi_text : string :=
  "---" +:+ newline +:+ "title: Hi" +:+ newline +:+ "---" +:+ newline
  +:+ "Body {{ page.title }}".

Definition site (text : string) : FS :=
  <[ ["site"; "hi.md"] := File text ]> (<[ ["site"] := Dir ]> ∅).

(** A heap whose object 0 is an empty context. *)
Definition empty_context_heap : Heap := <[ 0 := ∅ ]> ∅.

(** A document whose frontmatter block is never closed. *)
Definition unclosed_text : string :=
  "---" +:+ newline +:+ "title: Hi" +:+ newline +:+ "Body".

(** A document without frontmatter. *)
Definition plain_text : string := "Just {{ page.title }}text".

(** ** The other helpers of the module *)

(** JavaScript values as the array and object helpers meet them. Numbers
    are integers; [NaN] and fractions are left out. [JHole] is the absent
    element of a sparse array: it reads as [undefined] and only occurs
    inside [JArr]. The properties of an object are listed in the order in
    which the object enumerates them. *)
Inductive JVal :=
| JUndefined
| JNull
| JHole
| JBool (b : bool)
| JNum (n : Z)
| JStr (s : string)
| JArr (items : list JVal)
| JObj (props : list (string * JVal)).

(** [Boolean(v)] *)
Definition truthy_val (v : JVal) : bool :=
  match v with
  | JUndefined | JNull | JHole => false
  | JBool b => b
  | JNum n => negb (Z.eqb n 0)
  | JStr s => negb (String.eqb s EmptyString)
  | JArr _ | JObj _ => true
  end.

(** index.js:23-31. The array is extended in place in the source; the model
    returns the array that is returned. A truthy value that is no array has
    no [push]. *)
Definition addToArray (arr data : JVal) : Exn + JVal :=
  let arr := if negb (truthy_val arr) then JArr [] else arr in
  match arr with
  | JArr items => inr (JArr (items ++ [data]))
  | _ => inl (TypeError "arr.push is not a function")
  end.

(** Calling [addToArray] for one value after the other, each time on the
    array the call before returned. *)
Fixpoint addAllToArray (arr : JVal) (datas : list JVal) : Exn + JVal :=
  match datas with
  | [] => inr arr
  | data :: datas' =>
      match addToArray arr data with
      | inr arr' => addAllToArray arr' datas'
      | inl e => inl e
      end
  end.

(** *** [lodash] *)

(** [_.isArray] *)
Definition isArray (v : JVal) : bool :=
  match v with JArr _ => true | _ => false end.

(** [_.isObject]: arrays and objects. *)
Definition isObject (v : JVal) : bool :=
  match v with JArr _ | JObj _ => true | _ => false end.

(** [_.isEmpty]: an array or string of length zero, an object without own
    properties, and every other value. *)
Definition isEmpty (v : JVal) : bool :=
  match v with
  | JArr items => match items with [] => true | _ => false end
  | JObj props => match props with [] => true | _ => false end
  | JStr s => String.eqb s EmptyString
  | _ => true
  end.

(** [_.compact]: the truthy elements, in order. *)
Definition compact (items : list JVal) : list JVal := List.filter truthy_val items.

(** The key the callback of [_.transform] receives: an index for an array,
    a name for an object. *)
Inductive Key :=
| Index (i : nat)
| Name (k : string).

(** [items[i] = val]: an index past the end leaves holes in between. *)
Definition set_index (i : nat) (val : JVal) (items : list JVal) : list JVal :=
  if i <? length items then <[i := val]> items
  else items ++ replicate (i - length items) JHole ++ [val].

(** [props[k] = val]: an existing property keeps its place. *)
Fixpoint set_prop (k : string) (val : JVal) (props : list (string * JVal))
  : list (string * JVal) :=
  match props with
  | [] => [(k, val)]
  | (k', v') :: props' =>
      if String.eqb k' k then (k', val) :: props'
      else (k', v') :: set_prop k val props'
  end.

Definition key_name (key : Key) : string :=
  match key with
  | Index i => pretty i
  | Name k => k
  end.

(** [prop[key] = val] *)
Definition assign (prop : JVal) (key : Key) (val : JVal) : JVal :=
  match prop, key with
  | JArr items, Index i => JArr (set_index i val items)
  | JObj props, _ => JObj (set_prop (key_name key) val props)
  | _, _ => prop
  end.

(** Visits the elements with their indexes, from index [i] on. *)
Fixpoint each_index {A} (f : A -> JVal -> nat -> A) (items : list JVal)
    (i : nat) (acc : A) : A :=
  match items with
  | [] => acc
  | value :: items' => each_index f items' (S i) (f acc value i)
  end.

(** The characters of a string, each a string of its own. *)
Fixpoint chars (s : string) : list JVal :=
  match s with
  | EmptyString => []
  | String c s' => JStr (String c EmptyString) :: chars s'
  end.

(** [_.transform(object, iteratee)] without an accumulator: the accumulator
    starts as an empty array for an array and as an empty object for
    everything else, and the callback is called for every element of an
    array, every own property of an object, every character of a string,
    and never for another primitive. *)
Definition transform (object : JVal) (iteratee : JVal -> JVal -> Key -> JVal) : JVal :=
  match object with
  | JArr items =>
      each_index (fun acc value i => iteratee acc value (Index i)) items 0 (JArr [])
  | JObj props =>
      fold_left (fun acc '(k, value) => iteratee acc value (Name k)) props (JObj [])
  | JStr s =>
      each_index (fun acc value i => iteratee acc value (Name (pretty i)))
        (chars s) 0 (JObj [])
  | _ => JObj []
  end.

(** index.js:40-42 *)
Definition cleanArray (obj : JVal) : JVal :=
  if isArray obj then
    match obj with
    | JArr items => JArr (compact items)
    | _ => obj
    end
  else obj.

(** The callback of index.js:54-62, with [utils.cleanObject] as [recurse]. *)
Definition clean_entry (recurse : JVal -> JVal) (prop value : JVal) (key : Key)
  : JVal :=
  let isObj := isObject value in
  let val := if isObj then cleanArray (recurse value) else value in
  let keep := if isObj then negb (isEmpty val) else truthy_val val in
  if keep then assign prop key val else prop.

(** index.js:53-63. The callback calls [cleanObject] on arrays and objects
    only, which the characters of a string are not. *)
Fixpoint cleanObject (obj : JVal) : JVal :=
  match obj with
  | JArr items => transform (JArr items) (clean_entry cleanObject)
  | JObj props => transform (JObj props) (clean_entry cleanObject)
  | _ => transform obj (clean_entry (fun value => value))
  end.

(** *** Notions used to state what [cleanObject] does *)

(** A value with nothing left to remove: a truthy primitive, or an array or
    object that is not empty, has distinct keys and holds such values only. *)
Fixpoint canonical (v : JVal) : bool :=
  match v with
  | JArr items =>
      match items with
      | [] => false
      | _ => forallb canonical items
      end
  | JObj props =>
      match props with
      | [] => false
      | _ => bool_decide (NoDup (map fst props))
             && forallb (fun p => canonical (snd p)) props
      end
  | _ => truthy_val v
  end.







Definition sparse_clean (xs : list JVal) : Prop :=
  Forall (fun x => x = JHole \/ canonical x = true) xs.

Definition props_clean (ps : list (string * JVal)) : Prop :=
  NoDup (map fst ps) /\ Forall (fun p => canonical (snd p) = true) ps.

Definition result_clean (r : JVal) : Prop :=
  match r with
  | JArr xs => sparse_clean xs
  | JObj ps => props_clean ps
  | _ => False
  end.


(** *** [decodeFormEncodedString] *)

(** Strings stand for their UTF-8 bytes. *)

(** [str.replace(/\+/g, '%20')] *)
Fixpoint replace_plus (s : string) : string :=
  match s with
  | EmptyString => EmptyString
  | String c s' =>
      if Ascii.eqb c "+" then String "%" (String "2" (String "0" (replace_plus s')))
      else String c (replace_plus s')
  end.

Definition hex_value (c : ascii) : option nat :=
  let n := nat_of_ascii c in
  if (48 <=? n) && (n <=? 57) then Some (n - 48)
  else if (65 <=? n) && (n <=? 70) then Some (n - 55)
  else if (97 <=? n) && (n <=? 102) then Some (n - 87)
  else None.

(** A character of the encoded text, or the octet of an escape. *)
Inductive CodeUnit :=
| Lit (c : ascii)
| Esc (b : ascii).

(** Reads the escapes; [None] when a [%] is not followed by two
    hexadecimal digits. *)
Fixpoint percent_units (s : string) : option (list CodeUnit) :=
  match s with
  | EmptyString => Some []
  | String c rest =>
      if Ascii.eqb c "%" then
        match rest with
        | String h1 (String h2 rest') =>
            match hex_value h1, hex_value h2 with
            | Some a, Some b =>
                option_map (cons (Esc (ascii_of_nat (16 * a + b)))) (percent_units rest')
            | _, _ => None
            end
        | _ => None
        end
      else option_map (cons (Lit c)) (percent_units rest)
  end.

(** An escaped octet between [lo] and [hi]. *)
Definition esc_in (lo hi : nat) (u : CodeUnit) : bool :=
  match u with
  | Esc b => (lo <=? nat_of_ascii b) && (nat_of_ascii b <=? hi)
  | Lit _ => false
  end.

Definition unit_char (u : CodeUnit) : ascii :=
  match u with
  | Lit c => c
  | Esc b => b
  end.

(** The escaped octets must be well-formed UTF-8, each sequence made of
    escapes only; [None] otherwise. *)
Fixpoint utf8_units (us : list CodeUnit) : option string :=
  match us with
  | [] => Some EmptyString
  | Lit c :: us' => option_map (String c) (utf8_units us')
  | Esc b :: us' =>
      let n := nat_of_ascii b in
      if n <? 128 then option_map (String b) (utf8_units us')
      else if (194 <=? n) && (n <=? 223) then
        match us' with
        | u1 :: us'' =>
            if esc_in 128 191 u1
            then option_map (fun s => String b (String (unit_char u1) s))
                   (utf8_units us'')
            else None
        | _ => None
        end
      else if (224 <=? n) && (n <=? 239) then
        match us' with
        | u1 :: u2 :: us'' =>
            if esc_in (if n =? 224 then 160 else 128) (if n =? 237 then 159 else 191) u1
               && esc_in 128 191 u2
            then option_map (fun s => String b (String (unit_char u1)
                                        (String (unit_char u2) s)))
                   (utf8_units us'')
            else None
        | _ => None
        end
      else if (240 <=? n) && (n <=? 244) then
        match us' with
        | u1 :: u2 :: u3 :: us'' =>
            if esc_in (if n =? 240 then 144 else 128) (if n =? 244 then 143 else 191) u1
               && esc_in 128 191 u2 && esc_in 128 191 u3
            then option_map (fun s => String b (String (unit_char u1)
                                        (String (unit_char u2)
                                          (String (unit_char u3) s))))
                   (utf8_units us'')
            else None
        | _ => None
        end
      else None
  end.

(** [decodeURIComponent(s)]; [None] is a thrown URIError. *)
Definition decodeURIComponent (s : string) : option string :=
  match percent_units s with
  | Some us => utf8_units us
  | None => None
  end.

(** What a call returns, or the URIError it throws. *)
Inductive Decoded :=
| Returned (v : JVal)
| URIError.

(** index.js:74-81 *)
Definition decodeFormEncodedString (str : JVal) : Decoded :=
  match str with
  | JStr s =>
      let str := replace_plus s in
      match decodeURIComponent str with
      | Some decoded => Returned (JStr decoded)
      | None => URIError
      end
  | _ => Returned (JBool false)
  end.

(** *** Notions used to state what [decodeFormEncodedString] does *)

Fixpoint has_char (c : ascii) (s : string) : bool :=
  match s with
  | EmptyString => false
  | String a s' => Ascii.eqb a c || has_char c s'
  end.

Fixpoint plus_to_space (s : string) : string :=
  match s with
  | EmptyString => EmptyString
  | String c s' => String (if Ascii.eqb c "+" then " "%char else c) (plus_to_space s')
  end.

Definition is_ascii (s : string) : bool :=
  forallb (fun c => nat_of_ascii c <? 128) (list_ascii_of_string s).

Definition hex_digit (n : nat) : ascii :=
  nth n (list_ascii_of_string "0123456789ABCDEF") "0"%char.

(** Form encoding of ASCII text: a space becomes [+], the characters
    [keep] accepts stand for themselves, every other one is escaped. *)
Fixpoint formEncode (keep : ascii -> bool) (s : string) : string :=
  match s with
  | EmptyString => EmptyString
  | String c s' =>
      if Ascii.eqb c " " then String "+" (formEncode keep s')
      else if keep c then String c (formEncode keep s')
      else String "%" (String (hex_digit (nat_of_ascii c / 16))
                         (String (hex_digit (nat_of_ascii c mod 16))
                            (formEncode keep s')))
  end.

(** Letters and digits. *)
Definition alphanumeric (c : ascii) : bool :=
  let n := nat_of_ascii c in
  ((48 <=? n) && (n <=? 57)) || ((65 <=? n) && (n <=? 90))
  || ((97 <=? n) && (n <=? 122)).

(** A text that cannot follow a [%]. *)
Definition bad_escape (b : string) : bool :=
  match b with
  | String h1 (String h2 _) =>
      match hex_value h1, hex_value h2 with
      | Some _, Some _ => false
      | _, _ => true
      end
  | _ => true
  end.

(** A text that does not start with an escape. *)
Definition no_escape_ahead (rest : string) : bool :=
  match rest with
  | String c _ => negb (Ascii.eqb c "%")
  | EmptyString => true
  end.

(** * Properties *)

(** ** The filesystem *)

Lemma truthy_Str (s : string) : truthy (Str s) = true ↔ s ≠ EmptyString.
Proof. destruct s; simpl; split; intros; congruence. Qed.

Lemma fs_writeFile_inv (p : Path) (c : string) (fs fs' : FS) :
  fs_writeFile p c fs = inr fs' → p ≠ [] ∧ fs' = <[p := File c]> fs.
Proof.
  unfold fs_writeFile. intros Hw.
  destruct (negb (is_dir fs (path_dirname p))); [discriminate |].
  destruct (is_dir fs p) eqn:Hd; [discriminate |].
  split; [| congruence].
  intros ->. discriminate Hd.
Qed.

(** What was written is what is read back. *)
Lemma fs_readFile_after_write (p : Path) (c : string) (fs fs' : FS) :
  fs_writeFile p c fs = inr fs' → fs_readFile p fs' = inr c.
Proof.
  intros Hw. apply fs_writeFile_inv in Hw as [Hp ->].
  unfold fs_readFile, is_dir.
  rewrite lookup_insert_eq. destruct p; [done | reflexivity].
Qed.

Lemma fs_readFile_absent (p : Path) (fs : FS) :
  fs !! p = None → cached p fs = Undefined.
Proof.
  intros Hn. unfold cached, fs_readFile, is_dir. rewrite Hn. by destruct p.
Qed.

(** ** [getData], branch by branch *)

Section CacheFacts.
Context (publisher : Publisher).
Implicit Types w : World publisher.

(** A non-empty local entry is returned and nothing changes. *)
Lemma getData_hit (b t : string) w :
  truthy (cached (path_join t b) (w_fs w)) = true →
  getData publisher b t w = (inr (cached (path_join t b) (w_fs w)), w).
Proof.
  unfold cached, getData, await, catch, fsp_readFile, resolve.
  destruct (fs_readFile (path_join t b) (w_fs w)) as [code | c]; simpl.
  - discriminate.
  - intros ->. reflexivity.
Qed.

(** On a miss the source is asked; its rejection is rethrown. *)
Lemma getData_miss_rejected (b t : string) w (msg : string) ps :
  truthy (cached (path_join t b) (w_fs w)) = false →
  pub_readFile publisher b (w_pub w) = (inl msg, ps) →
  getData publisher b t w =
    (inl (FetchError msg),
     Build_World publisher (w_fs w) ps (w_reads w ++ [b])).
Proof.
  unfold cached, getData, await, catch, fsp_readFile, resolve, reject,
    publisher_readFile.
  intros Hm Hp.
  destruct (fs_readFile (path_join t b) (w_fs w)) as [code | c]; simpl in *;
    rewrite ?Hm, Hp; reflexivity.
Qed.

(** Falsy data from the source is neither written nor returned. *)
Lemma getData_miss_falsy (b t : string) w (d : Data) ps :
  truthy (cached (path_join t b) (w_fs w)) = false →
  pub_readFile publisher b (w_pub w) = (inr d, ps) →
  truthy d = false →
  getData publisher b t w =
    (inr Undefined, Build_World publisher (w_fs w) ps (w_reads w ++ [b])).
Proof.
  unfold cached, getData, await, catch, fsp_readFile, resolve, reject,
    publisher_readFile.
  intros Hm Hp Hd.
  destruct (fs_readFile (path_join t b) (w_fs w)) as [code | c]; simpl in *;
    rewrite ?Hm, Hp, Hd; reflexivity.
Qed.

(** Truthy data is persisted; the call then resolves with what
    [writeFile] resolved with. *)
Lemma getData_miss_truthy (b t : string) w (s : string) ps :
  truthy (cached (path_join t b) (w_fs w)) = false →
  pub_readFile publisher b (w_pub w) = (inr (Str s), ps) →
  s ≠ EmptyString →
  getData publisher b t w =
    match fs_mkdir_recursive (path_dirname (path_join t b)) (w_fs w) with
    | inl code =>
        (inl (PersistError code),
         Build_World publisher (w_fs w) ps (w_reads w ++ [b]))
    | inr fs1 =>
        match fs_writeFile (path_join t b) s fs1 with
        | inl code =>
            (inl (PersistError code),
             Build_World publisher fs1 ps (w_reads w ++ [b]))
        | inr fs2 =>
            (inr Undefined, Build_World publisher fs2 ps (w_reads w ++ [b]))
        end
    end.
Proof.
  unfold cached, getData, await, catch, fsp_readFile, resolve, reject,
    publisher_readFile, fsp_mkdir, fsp_writeFile.
  intros Hm Hp Hs. destruct s as [| a s']; [done |].
  destruct (fs_readFile (path_join t b) (w_fs w)) as [code | c]; simpl in *;
    rewrite ?Hm, Hp; simpl;
    destruct (fs_mkdir_recursive _ _) as [code1 | fs1]; simpl; try reflexivity;
    destruct (fs_writeFile _ _ _) as [code2 | fs2]; reflexivity.
Qed.

(** On a miss no string is ever handed back to the caller. *)
Lemma getData_miss_no_string (b t : string) w (s : string) :
  truthy (cached (path_join t b) (w_fs w)) = false →
  fst (getData publisher b t w) ≠ inr (Str s).
Proof.
  intros Hm.
  destruct (pub_readFile publisher b (w_pub w)) as [[msg | d] ps] eqn:Hp.
  - rewrite (getData_miss_rejected b t w msg ps Hm Hp). discriminate.
  - destruct (truthy d) eqn:Hd.
    + destruct d as [| c]; [discriminate |]. apply truthy_Str in Hd.
      rewrite (getData_miss_truthy b t w c ps Hm Hp Hd).
      destruct (fs_mkdir_recursive _ _) as [code1 | fs1]; [discriminate |].
      destruct (fs_writeFile _ _ _) as [code2 | fs2]; discriminate.
    + rewrite (getData_miss_falsy b t w d ps Hm Hp Hd). discriminate.
Qed.

(** Every call on a miss asks the source exactly once. *)
Lemma getData_miss_reads (b t : string) w :
  truthy (cached (path_join t b) (w_fs w)) = false →
  w_reads (snd (getData publisher b t w)) = w_reads w ++ [b].
Proof.
  intros Hm.
  destruct (pub_readFile publisher b (w_pub w)) as [[msg | d] ps] eqn:Hp.
  - by rewrite (getData_miss_rejected b t w msg ps Hm Hp).
  - destruct (truthy d) eqn:Hd.
    + destruct d as [| c]; [discriminate |]. apply truthy_Str in Hd.
      rewrite (getData_miss_truthy b t w c ps Hm Hp Hd).
      destruct (fs_mkdir_recursive _ _) as [code1 | fs1]; [done |].
      by destruct (fs_writeFile _ _ _) as [code2 | fs2].
    + by rewrite (getData_miss_falsy b t w d ps Hm Hp Hd).
Qed.

End CacheFacts.

(** ** Claims about [getData] *)

(** C1 (the code departs from it). The claim: on a miss with a source that
    returns ["hello"] for ['a/b.txt'], the call returns ["hello"] and
    [dir/a/b.txt] then holds ["hello"]. On exactly that input the file is
    written, but the call resolves with [undefined], the value [writeFile]
    resolved with. *)
Theorem getData_fetch_and_persist_resolves_undefined :
  let run := getData demo_publisher "a/b.txt" "/tmp/cache" (demo_world empty_cache) in
  empty_cache !! path_join "/tmp/cache" "a/b.txt" = None ∧
  pub_readFile demo_publisher "a/b.txt" tt = (inr (Str "hello"), tt) ∧
  fst run = inr Undefined ∧
  fst run ≠ inr (Str "hello") ∧
  fs_readFile (path_join "/tmp/cache" "a/b.txt") (w_fs (snd run)) = inr "hello".
Proof. vm_compute. repeat split; congruence. Qed.

(** C2. When the identifier has no entry in the cache directory and the
    source's [readFile] rejects, [getData] rejects with an error that carries
    the source's message, the filesystem is left as it was, and the entry
    still does not exist. *)
Theorem getData_fetch_failure_writes_nothing
    (publisher : Publisher) (b t : string) (w : World publisher)
    (msg : string) (ps : pub_state publisher) :
  w_fs w !! path_join t b = None →
  pub_readFile publisher b (w_pub w) = (inl msg, ps) →
  fst (getData publisher b t w) = inl (FetchError msg) ∧
  w_fs (snd (getData publisher b t w)) = w_fs w ∧
  w_fs (snd (getData publisher b t w)) !! path_join t b = None.
Proof.
  intros Hn Hp.
  assert (Hm : truthy (cached (path_join t b) (w_fs w)) = false)
    by (by rewrite fs_readFile_absent).
  rewrite (getData_miss_rejected publisher b t w msg ps Hm Hp). simpl. auto.
Qed.

Lemma getData_fetch_failure_writes_nothing_witness :
  let w := demo_world empty_cache in
  w_fs w !! path_join "/tmp/cache" "missing.txt" = None ∧
  pub_readFile demo_publisher "missing.txt" (w_pub w) = (inl "Not Found", tt) ∧
  fst (getData demo_publisher "missing.txt" "/tmp/cache" w) = inl (FetchError "Not Found") ∧
  w_fs (snd (getData demo_publisher "missing.txt" "/tmp/cache" w)) = w_fs w ∧
  w_fs (snd (getData demo_publisher "missing.txt" "/tmp/cache" w))
    !! path_join "/tmp/cache" "missing.txt" = None.
Proof.
  intros w.
  split; [vm_compute; reflexivity |].
  split; [vm_compute; reflexivity |].
  apply (getData_fetch_failure_writes_nothing demo_publisher
           "missing.txt" "/tmp/cache" w "Not Found" tt);
    vm_compute; reflexivity.
Defined.

(** C3, as stated, fails: a source that returns empty data makes the first
    call complete without an error and without a cache entry, and the second
    call asks the source again. *)
Lemma getData_empty_payload_fetched_again :
  let first := getData demo_publisher "empty.txt" "/tmp/cache" (demo_world empty_cache) in
  let second := getData demo_publisher "empty.txt" "/tmp/cache" (snd first) in
  fst first = inr Undefined ∧
  fs_readFile (path_join "/tmp/cache" "empty.txt") (w_fs (snd first)) = inl "ENOENT" ∧
  w_reads (snd first) = ["empty.txt"] ∧
  w_reads (snd second) = ["empty.txt"; "empty.txt"].
Proof. vm_compute. repeat split. Qed.

(** C3, amended. After a call that completed without an error and in which
    the cache held, or the source returned, non-empty data, the entry
    [cacheDir/identifier] exists, and a second call with the same arguments
    returns exactly its bytes, changes nothing and does not ask the source. *)
Theorem getData_second_call_served_from_cache
    (publisher : Publisher) (b t : string) (w w1 : World publisher) (r : Data) :
  getData publisher b t w = (inr r, w1) →
  truthy (cached (path_join t b) (w_fs w)) = true ∨
    (∃ d, fst (pub_readFile publisher b (w_pub w)) = inr d ∧ truthy d = true) →
  ∃ s, fs_readFile (path_join t b) (w_fs w1) = inr s ∧
       getData publisher b t w1 = (inr (Str s), w1) ∧
       w_reads (snd (getData publisher b t w1)) = w_reads w1.
Proof.
  intros Hrun Hcond.
  assert (Hserve : ∀ s, fs_readFile (path_join t b) (w_fs w1) = inr s →
                        s ≠ EmptyString →
                        getData publisher b t w1 = (inr (Str s), w1)).
  { intros s Hs Hne.
    assert (Hc : cached (path_join t b) (w_fs w1) = Str s)
      by (unfold cached; by rewrite Hs).
    rewrite getData_hit; rewrite Hc; [done |]. by apply truthy_Str. }
  destruct (truthy (cached (path_join t b) (w_fs w))) eqn:Hc.
  - rewrite (getData_hit publisher b t w Hc) in Hrun.
    injection Hrun as <- <-.
    unfold cached in Hc.
    destruct (fs_readFile (path_join t b) (w_fs w)) as [code | s] eqn:Hs;
      [discriminate |].
    apply truthy_Str in Hc. exists s.
    rewrite (Hserve s eq_refl Hc). auto.
  - destruct Hcond as [Hhit | (d & Hd & Ht)]; [discriminate |].
    destruct (pub_readFile publisher b (w_pub w)) as [out ps] eqn:Hp.
    simpl in Hd. subst out.
    destruct d as [| s]; [discriminate |]. apply truthy_Str in Ht.
    rewrite (getData_miss_truthy publisher b t w s ps Hc Hp Ht) in Hrun.
    destruct (fs_mkdir_recursive _ _) as [code1 | fs1]; [discriminate |].
    destruct (fs_writeFile _ _ _) as [code2 | fs2] eqn:Hw; [discriminate |].
    injection Hrun as <- <-.
    apply fs_readFile_after_write in Hw.
    exists s. rewrite (Hserve s Hw Ht). auto.
Qed.

Lemma getData_second_call_served_from_cache_witness :
  let w := demo_world empty_cache in
  let w1 := snd (getData demo_publisher "a/b.txt" "/tmp/cache" w) in
  ∃ s, fs_readFile (path_join "/tmp/cache" "a/b.txt") (w_fs w1) = inr s ∧
       getData demo_publisher "a/b.txt" "/tmp/cache" w1 = (inr (Str s), w1) ∧
       w_reads (snd (getData demo_publisher "a/b.txt" "/tmp/cache" w1)) = w_reads w1.
Proof.
  intros w w1.
  apply (getData_second_call_served_from_cache demo_publisher
           "a/b.txt" "/tmp/cache" w w1 Undefined).
  - vm_compute. reflexivity.
  - right. exists (Str "hello"). split; vm_compute; reflexivity.
Defined.



(** ** The date filter *)

(** What is neither ['now'] nor a valid timestamp formats as the marker. *)
Lemma formatDate_invalid `{Luxon} (value : Value) (format : string)
    (locale : option string) :
  is_now value = false →
  valid_iso value = false →
  formatDate value format locale = "Invalid DateTime".
Proof.
  intros Hnow Hiso. unfold formatDate, DateTime_fromISO. rewrite Hnow.
  destruct value as [| text | props]; simpl in *; try reflexivity.
  by destruct (parseISO text utc).
Qed.

(** C7, as stated, fails: ["yesterday"] is neither the token ['now'] nor a
    valid timestamp, and [formatDate] returns a string for it; used as the
    [date] filter in a template, the render succeeds with that string. *)
Lemma formatDate_yesterday_returns_a_string :
  @is_now (VString "yesterday") = false ∧
  @valid_iso calendar (VString "yesterday") = false ∧
  @formatDate calendar (VString "yesterday") "dd/MM/yyyy" None = "Invalid DateTime" ∧
  @render calendar (VString "{{ 'yesterday' | date('dd/MM/yyyy') }}") ∅
    = inr "Invalid DateTime".
Proof. vm_compute. repeat split. Qed.

(** C7, amended. For a value that is neither the token ['now'] nor a valid
    ISO-8601 timestamp, [formatDate] does not fail: it returns the date
    library's marker for an invalid date-time, the string
    ["Invalid DateTime"], and the [date] filter hands that string on. *)
Theorem formatDate_invalid_value_gives_marker
    `{Luxon} (value : Value) (format : string) (locale : option string) :
  is_now value = false →
  valid_iso value = false →
  formatDate value format locale = "Invalid DateTime" ∧
  date_filter value
    (format :: match locale with Some l => [l] | None => [] end)
    = inr (VString "Invalid DateTime").
Proof.
  intros Hnow Hiso. split.
  - by apply formatDate_invalid.
  - unfold date_filter. destruct locale; by rewrite formatDate_invalid.
Qed.

Lemma formatDate_invalid_value_gives_marker_witness :
  @formatDate calendar (VString "2020-02-30") "dd/MM/yyyy" (Some "en-GB")
    = "Invalid DateTime" ∧
  @date_filter calendar (VString "2020-02-30") ["dd/MM/yyyy"; "en-GB"]
    = inr (VString "Invalid DateTime").
Proof.
  apply (@formatDate_invalid_value_gives_marker calendar
           (VString "2020-02-30") "dd/MM/yyyy" (Some "en-GB"));
    vm_compute; reflexivity.
Defined.

(** C8, as stated, fails where the system zone is not UTC. On a machine
    five hours behind UTC whose clock shows 09:50 on 2 November 2026, the
    local date-time formats as ["02/11/2026 09:50"], and [formatDate] of
    ['now'] returns ["02/11/2026 14:50"]: the same instant, read at UTC. *)
Lemma formatDate_now_is_not_the_local_reading :
  @toISO calendar_west (@DateTime_local calendar_west)
    = "2026-11-02T09:50:00.000-05:00" ∧
  @toFormat calendar_west (@DateTime_local calendar_west) "dd/MM/yyyy HH:mm" "en-GB"
    = "02/11/2026 09:50" ∧
  @formatDate calendar_west (VString "now") "dd/MM/yyyy HH:mm" None
    = "02/11/2026 14:50".
Proof. vm_compute. repeat split. Qed.

(** C8, amended. For the token ['now'], [formatDate] takes the instant the
    system clock reads and returns it formatted with the given pattern under
    the given locale (['en-GB'] when none is given), expressed in UTC and
    not in the system zone: the date-time that is formatted is valid, has
    the instant of the clock and the zone ['utc']. It is the local
    date-time that is formatted only where the system zone is at UTC. *)
Theorem formatDate_now_formats_the_instant_at_utc
    `{Luxon} (format : string) (locale : option string) :
  DateTime_fromISO (inl DateTime_local) utc = Some {| ts := now; offset := utc |} ∧
  formatDate (VString "now") format locale =
    toFormat {| ts := now; offset := utc |} format
      (match locale with Some l => l | None => "en-GB" end) ∧
  (local_offset = utc →
   formatDate (VString "now") format locale =
     toFormat DateTime_local format
       (match locale with Some l => l | None => "en-GB" end)).
Proof.
  assert (Hread : DateTime_fromISO (inl DateTime_local) utc
                  = Some {| ts := now; offset := utc |}).
  { unfold DateTime_fromISO, DateTime_local. by rewrite local_round_trip. }
  assert (Hnow : formatDate (VString "now") format locale =
                 toFormat {| ts := now; offset := utc |} format
                   (match locale with Some l => l | None => "en-GB" end)).
  { unfold formatDate. cbn [is_now]. rewrite String.eqb_refl. by rewrite Hread. }
  split; [exact Hread |]. split; [exact Hnow |].
  intros Hzone. rewrite Hnow. unfold DateTime_local. by rewrite Hzone.
Qed.

Lemma formatDate_now_formats_the_instant_at_utc_witness :
  @formatDate calendar_west (VString "now") "dd/MM/yyyy HH:mm" (Some "en-GB")
    = "02/11/2026 14:50" ∧
  @formatDate calendar (VString "now") "dd/MM/yyyy HH:mm" None
    = @toFormat calendar (@DateTime_local calendar) "dd/MM/yyyy HH:mm" "en-GB".
Proof.
  split.
  - destruct (@formatDate_now_formats_the_instant_at_utc calendar_west
                "dd/MM/yyyy HH:mm" (Some "en-GB")) as (_ & Hnow & _).
    rewrite Hnow. vm_compute. reflexivity.
  - destruct (@formatDate_now_formats_the_instant_at_utc calendar
                "dd/MM/yyyy HH:mm" None) as (_ & _ & Hlocal).
    apply Hlocal. reflexivity.
Defined.

(** ** Frontmatter and rendering *)

Lemma split_at_closing_unclosed (opening : string) (ls : list string) :
  existsb (is_closing opening) ls = false → split_at_closing opening ls = None.
Proof.
  induction ls as [| l ls IH]; simpl; [done |].
  intros Hex. apply orb_false_iff in Hex as [Hl Hls].
  rewrite Hl. by rewrite IH.
Qed.

(** An opening line would also close a block of its own delimiter. *)
Lemma is_opening_delimiter_line (l : string) :
  is_opening l = true → is_delimiter_line l = true.
Proof.
  unfold is_opening. intros Ho.
  apply orb_true_iff in Ho as [Ho | Ho]; apply String.eqb_eq in Ho; by subst l.
Qed.

(** Where no line is a delimiter line there is no block. *)
Lemma find_block_without_delimiters (ls : list string) :
  existsb is_delimiter_line ls = false → find_block ls = None.
Proof.
  induction ls as [| l ls IH]; simpl; [done |].
  intros Hex. apply orb_false_iff in Hex as [Hl Hls].
  destruct (is_opening l) eqn:Ho.
  - apply is_opening_delimiter_line in Ho. congruence.
  - by rewrite IH.
Qed.

(** An opened block that is never closed is no block. *)
Lemma frontmatter_unclosed (raw : string) (rest : list string) :
  lines raw = marker :: rest →
  existsb is_delimiter_line rest = false →
  frontmatter raw = inr {| attributes := ∅; body := raw |}.
Proof.
  intros Hl Hex. unfold frontmatter. rewrite Hl.
  replace (contains marker marker || contains "= yaml =" marker) with true
    by reflexivity.
  cbn [find_block].
  replace (is_opening marker) with true by reflexivity.
  assert (Hc : existsb (is_closing marker) rest = false).
  { clear Hl. induction rest as [| l rest IH]; simpl in *; [done |].
    apply orb_false_iff in Hex as [Hl Hrest].
    unfold is_delimiter_line in Hl. apply orb_false_iff in Hl as [Hl _].
    rewrite Hl. by apply IH. }
  rewrite (split_at_closing_unclosed marker rest Hc).
  by rewrite (find_block_without_delimiters rest Hex).
Qed.

Section RenderingFacts.
Context `{Luxon}.

(** Once the file is read and parsed, [page] is stored in the caller's
    context object and both renders read that object. *)
Lemma renderDocument_run (file : Path) (context : nat) (fs : FS) (h : Heap)
    (raw : string) (doc : Parsed) (obj : gmap string Value) :
  fs_readFile file fs = inr raw →
  frontmatter raw = inr doc →
  h !! context = Some obj →
  renderDocument file context fs h =
    (let ctx := <["page" := VObject (attributes doc)]> obj in
     (let? b := render (VString (body doc)) ctx in
      let? t := render (get_prop "title" (attributes doc)) ctx in
      inr {| doc_body := b; doc_page := attributes doc; doc_title := t |},
      <[context := ctx]> h)).
Proof.
  intros Hr Hp Hc. unfold renderDocument.
  rewrite Hr, Hp, Hc. by rewrite lookup_insert_eq.
Qed.

(** The engine refuses a template that is missing. *)
Lemma render_undefined (context : gmap string Value) :
  render VUndefined context =
    inl (JsError "src must be a string or an object describing the source").
Proof. reflexivity. Qed.

(** Without a [title] the title render fails, after the body's. *)
Lemma renderDocument_no_title (file : Path) (context : nat) (fs : FS) (h : Heap)
    (raw : string) (doc : Parsed) (obj : gmap string Value) :
  fs_readFile file fs = inr raw →
  frontmatter raw = inr doc →
  attributes doc !! "title" = None →
  h !! context = Some obj →
  fst (renderDocument file context fs h) =
    (let? b := render (VString (body doc))
                 (<["page" := VObject (attributes doc)]> obj) in
     inl (JsError "src must be a string or an object describing the source")).
Proof.
  intros Hr Hp Ht Hc.
  rewrite (renderDocument_run file context fs h raw doc obj Hr Hp Hc).
  unfold get_prop. rewrite Ht. simpl.
  by destruct (render (VString (body doc))
                 (<["page" := VObject (attributes doc)]> obj)).
Qed.

End RenderingFacts.

(** C4, as stated, fails: a text whose block is opened and never closed
    parses, to empty frontmatter and the whole text as body, and
    [renderDocument] on it fails in the template engine, on the title the
    text does not have, and not in the parser. *)
Lemma unclosed_frontmatter_parses :
  lines unclosed_text = marker :: ["title: Hi"; "Body"] ∧
  frontmatter unclosed_text = inr {| attributes := ∅; body := unclosed_text |} ∧
  fst (@renderDocument calendar ["site"; "hi.md"] 0 (site unclosed_text)
         empty_context_heap)
    = inl (JsError "src must be a string or an object describing the source").
Proof. vm_compute. repeat split. Qed.

(** C4, amended. A text that begins with the opening marker line and has no
    closing line is not a parse error: it is taken as a document without
    frontmatter, with empty attributes and the whole text as body, and
    [renderDocument] treats it as such. It returns no document either: with
    [page] set to the empty frontmatter, the call fails on the body if the
    body does not render, and on the missing title if it does. *)
Theorem unclosed_frontmatter_is_no_frontmatter
    `{Luxon} (raw : string) (rest : list string) :
  lines raw = marker :: rest →
  existsb is_delimiter_line rest = false →
  frontmatter raw = inr {| attributes := ∅; body := raw |} ∧
  ∀ (file : Path) (context : nat) (fs : FS) (h : Heap) (obj : gmap string Value),
    fs_readFile file fs = inr raw →
    h !! context = Some obj →
    renderDocument file context fs h =
      (let? b := render (VString raw) (<["page" := VObject ∅]> obj) in
       inl (JsError "src must be a string or an object describing the source"),
       <[context := <["page" := VObject ∅]> obj]> h).
Proof.
  intros Hl Hex.
  assert (Hp : frontmatter raw = inr {| attributes := ∅; body := raw |})
    by (by apply (frontmatter_unclosed raw rest)).
  split; [exact Hp |].
  intros file context fs h obj Hr Hc.
  rewrite (renderDocument_run file context fs h raw _ obj Hr Hp Hc). simpl.
  by destruct (render (VString raw) (<["page" := VObject ∅]> obj)).
Qed.

Lemma unclosed_frontmatter_is_no_frontmatter_witness :
  frontmatter unclosed_text = inr {| attributes := ∅; body := unclosed_text |} ∧
  ∀ (file : Path) (context : nat) (fs : FS) (h : Heap) (obj : gmap string Value),
    fs_readFile file fs = inr unclosed_text →
    h !! context = Some obj →
    @renderDocument calendar file context fs h =
      (let? b := @render calendar (VString unclosed_text)
                   (<["page" := VObject ∅]> obj) in
       inl (JsError "src must be a string or an object describing the source"),
       <[context := <["page" := VObject ∅]> obj]> h).
Proof.
  apply (@unclosed_frontmatter_is_no_frontmatter calendar
           unclosed_text ["title: Hi"; "Body"]);
    vm_compute; reflexivity.
Defined.

(** C5. The text of the round trip parses to frontmatter [{title: "Hi"}] and
    body ["Body {{ page.title }}"], and [renderDocument] with an empty context
    gives body ["Body Hi"] and title ["Hi"]. In general body and title are
    rendered against one and the same context object, the caller's with
    [page] set to the frontmatter. *)
Theorem renderDocument_round_trip :
  frontmatter hi_text =
    inr {| attributes := {[ "title" := VString "Hi" ]};
           body := "Body {{ page.title }}" |} ∧
  (∀ L : Luxon,
     fst (renderDocument ["site"; "hi.md"] 0 (site hi_text) empty_context_heap) =
       inr {| doc_body := "Body Hi";
              doc_page := {[ "title" := VString "Hi" ]};
              doc_title := "Hi" |}) ∧
  (∀ (L : Luxon) (file : Path) (context : nat) (fs : FS) (h : Heap)
     (raw : string) (doc : Parsed) (obj : gmap string Value),
     fs_readFile file fs = inr raw →
     frontmatter raw = inr doc →
     h !! context = Some obj →
     ∃ ctx,
       ctx !! "page" = Some (VObject (attributes doc)) ∧
       snd (renderDocument file context fs h) !! context = Some ctx ∧
       fst (renderDocument file context fs h) =
         (let? b := render (VString (body doc)) ctx in
          let? t := render (get_prop "title" (attributes doc)) ctx in
          inr {| doc_body := b; doc_page := attributes doc; doc_title := t |})).
Proof.
  split; [vm_compute; reflexivity |].
  split; [intros L; vm_compute; reflexivity |].
  intros L file context fs h raw doc obj Hr Hp Hc.
  rewrite (renderDocument_run file context fs h raw doc obj Hr Hp Hc).
  eexists. simpl. rewrite !lookup_insert_eq. done.
Qed.

Lemma renderDocument_round_trip_witness :
  ∃ ctx,
    ctx !! "page" = Some (VObject {[ "title" := VString "Hi" ]}) ∧
    snd (@renderDocument calendar ["site"; "hi.md"] 0 (site hi_text)
           empty_context_heap) !! 0 = Some ctx.
Proof.
  destruct renderDocument_round_trip as (Hparse & _ & Hsame).
  destruct (Hsame calendar ["site"; "hi.md"] 0 (site hi_text) empty_context_heap
              hi_text _ ∅ ltac:(vm_compute; reflexivity) Hparse
              ltac:(vm_compute; reflexivity))
    as (ctx & Hpage & Hheap & _).
  exists ctx. split; [exact Hpage | exact Hheap].
Defined.

(** C6, as stated, fails: for a document without a [title] the call does not
    return a document with an undefined title; the template engine is handed
    [undefined] as the title template and refuses it. *)
Lemma renderDocument_without_title_fails :
  frontmatter plain_text = inr {| attributes := ∅; body := plain_text |} ∧
  @render calendar (VString plain_text) {[ "page" := VObject ∅ ]} = inr "Just text" ∧
  fst (@renderDocument calendar ["site"; "hi.md"] 0 (site plain_text)
         empty_context_heap)
    = inl (JsError "src must be a string or an object describing the source").
Proof. vm_compute. repeat split. Qed.

(** C6, amended. When the frontmatter has no [title] key, [renderDocument]
    renders the body and then passes the undefined title to the template
    engine, which accepts only a string as a template: the call returns no
    document and fails, with the engine's error about the template source
    when the body renders and with the body's error when it does not. *)
Theorem renderDocument_without_title
    `{Luxon} (file : Path) (context : nat) (fs : FS) (h : Heap)
    (raw : string) (doc : Parsed) (obj : gmap string Value) :
  fs_readFile file fs = inr raw →
  frontmatter raw = inr doc →
  attributes doc !! "title" = None →
  h !! context = Some obj →
  let ctx := <["page" := VObject (attributes doc)]> obj in
  (∀ d : Document, fst (renderDocument file context fs h) ≠ inr d) ∧
  (∀ b, render (VString (body doc)) ctx = inr b →
        fst (renderDocument file context fs h) =
          inl (JsError "src must be a string or an object describing the source")) ∧
  (∀ e, render (VString (body doc)) ctx = inl e →
        fst (renderDocument file context fs h) = inl e).
Proof.
  intros Hr Hp Ht Hc ctx.
  rewrite (renderDocument_no_title file context fs h raw doc obj Hr Hp Ht Hc).
  fold ctx.
  destruct (render (VString (body doc)) ctx) as [e | b].
  - split; [discriminate |]. split; [discriminate |]. by intros e' [= <-].
  - split; [discriminate |]. split; [done | discriminate].
Qed.

Lemma renderDocument_without_title_witness :
  fst (@renderDocument calendar ["site"; "hi.md"] 0 (site plain_text)
         empty_context_heap)
    = inl (JsError "src must be a string or an object describing the source").
Proof.
  destruct (@renderDocument_without_title calendar
              ["site"; "hi.md"] 0 (site plain_text) empty_context_heap
              plain_text {| attributes := ∅; body := plain_text |} ∅
              ltac:(vm_compute; reflexivity) ltac:(vm_compute; reflexivity)
              ltac:(vm_compute; reflexivity) ltac:(vm_compute; reflexivity))
    as (_ & Hfail & _).
  apply (Hfail "Just text"). vm_compute. reflexivity.
Defined.

(** C9. [renderDocument] stores the parsed frontmatter under the [page] key of
    the caller's own context object before it renders: the object the caller
    holds afterwards has [page] set and every other key as before, body and
    title are rendered against that object, and no other object changes.
    This holds whether or not rendering then succeeds. *)
Theorem renderDocument_sets_page_in_callers_context
    `{Luxon} (file : Path) (context : nat) (fs : FS) (h : Heap)
    (raw : string) (doc : Parsed) (obj : gmap string Value) :
  fs_readFile file fs = inr raw →
  frontmatter raw = inr doc →
  h !! context = Some obj →
  ∃ obj',
    snd (renderDocument file context fs h) !! context = Some obj' ∧
    obj' !! "page" = Some (VObject (attributes doc)) ∧
    (∀ key, key ≠ "page" → obj' !! key = obj !! key) ∧
    fst (renderDocument file context fs h) =
      (let? b := render (VString (body doc)) obj' in
       let? t := render (get_prop "title" (attributes doc)) obj' in
       inr {| doc_body := b; doc_page := attributes doc; doc_title := t |}) ∧
    (∀ other, other ≠ context →
              snd (renderDocument file context fs h) !! other = h !! other).
Proof.
  intros Hr Hp Hc.
  rewrite (renderDocument_run file context fs h raw doc obj Hr Hp Hc).
  exists (<["page" := VObject (attributes doc)]> obj). simpl.
  split; [apply lookup_insert_eq |].
  split; [apply lookup_insert_eq |].
  split; [intros key Hk; by apply lookup_insert_ne |].
  split; [reflexivity |].
  intros other Ho. by apply lookup_insert_ne.
Qed.

(** A heap with the caller's context at 0 and an unrelated object at 1. *)
Lemma renderDocument_sets_page_in_callers_context_witness :
  let obj : gmap string Value := {[ "site" := VString "indiekit" ]} in
  let h : Heap := <[ 1 := {[ "page" := VString "other" ]} ]> (<[ 0 := obj ]> ∅) in
  let run := @renderDocument calendar ["site"; "hi.md"] 0 (site hi_text) h in
  ∃ obj',
    snd run !! 0 = Some obj' ∧
    obj' !! "page" = Some (VObject {[ "title" := VString "Hi" ]}) ∧
    obj' !! "site" = Some (VString "indiekit") ∧
    snd run !! 1 = Some {[ "page" := VString "other" ]}.
Proof.
  intros obj h run.
  destruct (@renderDocument_sets_page_in_callers_context calendar
              ["site"; "hi.md"] 0 (site hi_text) h hi_text
              {| attributes := {[ "title" := VString "Hi" ]};
                 body := "Body {{ page.title }}" |} obj
              ltac:(vm_compute; reflexivity) ltac:(vm_compute; reflexivity)
              ltac:(vm_compute; reflexivity))
    as (obj' & Hctx & Hpage & Hkeys & _ & Hothers).
  exists obj'.
  split; [exact Hctx |]. split; [exact Hpage |].
  split.
  - rewrite (Hkeys "site"); [vm_compute; reflexivity | discriminate].
  - subst run. rewrite (Hothers 1); [vm_compute; reflexivity | discriminate].
Defined.


(** * Further properties *)

(** ** [mkdir] with [recursive: true] *)

(** It only ever adds directories, and only where nothing was. *)
Lemma mkdir_from_lookup (rest pre : Path) (fs fs' : FS) (q : Path) :
  mkdir_from pre rest fs = inr fs' →
  fs' !! q = fs !! q ∨ (fs !! q = None ∧ fs' !! q = Some Dir).
Proof.
  revert pre fs. induction rest as [| seg rest IH]; intros pre fs; simpl.
  - intros [= <-]. by left.
  - destruct (fs !! (pre ++ [seg])) as [[c |] |] eqn:Hp; [discriminate | apply IH |].
    intros Hm. destruct (IH _ _ Hm) as [Heq | [Hnone Hdir]].
    + destruct (decide (pre ++ [seg] = q)) as [<- | Hne].
      * right. split; [done |]. by rewrite Heq, lookup_insert_eq.
      * left. by rewrite Heq, lookup_insert_ne.
    + right. split; [| done].
      destruct (decide (pre ++ [seg] = q)) as [<- | Hne].
      * by rewrite lookup_insert_eq in Hnone.
      * by rewrite lookup_insert_ne in Hnone.
Qed.

(** ** More about [getData] *)

(** How a call can leave the filesystem: as it was, with the directories
    made and an error, or with the directories made and the file written. *)
Lemma getData_outcomes (publisher : Publisher) (b t : string)
    (w : World publisher) :
  w_fs (snd (getData publisher b t w)) = w_fs w ∨
  ∃ fs1, fs_mkdir_recursive (path_dirname (path_join t b)) (w_fs w) = inr fs1 ∧
    ((∃ code, fst (getData publisher b t w) = inl (PersistError code) ∧
              w_fs (snd (getData publisher b t w)) = fs1) ∨
     (∃ s, s ≠ EmptyString ∧
           fst (getData publisher b t w) = inr Undefined ∧
           fs_writeFile (path_join t b) s fs1
             = inr (w_fs (snd (getData publisher b t w))))).
Proof.
  destruct (truthy (cached (path_join t b) (w_fs w))) eqn:Hc.
  { left. by rewrite (getData_hit publisher b t w Hc). }
  destruct (pub_readFile publisher b (w_pub w)) as [[msg | d] ps] eqn:Hp.
  { left. by rewrite (getData_miss_rejected publisher b t w msg ps Hc Hp). }
  destruct (truthy d) eqn:Hd.
  2: { left. by rewrite (getData_miss_falsy publisher b t w d ps Hc Hp Hd). }
  destruct d as [| s]; [discriminate |]. apply truthy_Str in Hd.
  rewrite (getData_miss_truthy publisher b t w s ps Hc Hp Hd).
  destruct (fs_mkdir_recursive _ _) as [code1 | fs1] eqn:Hm; [by left |].
  right. exists fs1. split; [done |].
  destruct (fs_writeFile _ _ _) as [code2 | fs2] eqn:Hw.
  - left. by exists code2.
  - right. exists s. by rewrite Hw.
Qed.

(** X1. [getData] resolves with a string only when the cache holds that
    string, non-empty, at [tmpdir/basepath]; the call has then changed
    nothing and has not asked the source. *)
Theorem getData_string_result_is_the_cached_entry
    (publisher : Publisher) (b t : string) (w : World publisher) (s : string) :
  fst (getData publisher b t w) = inr (Str s) →
  fs_readFile (path_join t b) (w_fs w) = inr s ∧
  s ≠ EmptyString ∧
  snd (getData publisher b t w) = w.
Proof.
  intros Hres.
  destruct (truthy (cached (path_join t b) (w_fs w))) eqn:Hc.
  - rewrite (getData_hit publisher b t w Hc) in Hres |- *. simpl in *.
    injection Hres as Hs. rewrite Hs in Hc. apply truthy_Str in Hc.
    unfold cached in Hs.
    destruct (fs_readFile (path_join t b) (w_fs w)); [discriminate |].
    injection Hs as ->. done.
  - by destruct (getData_miss_no_string publisher b t w s Hc).
Qed.

(** A cache in which [a/b.txt] holds ["cached"]. *)
Lemma getData_string_result_is_the_cached_entry_witness :
  let fs : FS := <[ ["tmp"; "cache"; "a"; "b.txt"] := File "cached" ]>
                   (<[ ["tmp"; "cache"; "a"] := Dir ]> empty_cache) in
  fs_readFile (path_join "/tmp/cache" "a/b.txt") fs = inr "cached" ∧
  snd (getData demo_publisher "a/b.txt" "/tmp/cache" (demo_world fs)) = demo_world fs.
Proof.
  intros fs.
  destruct (getData_string_result_is_the_cached_entry demo_publisher
              "a/b.txt" "/tmp/cache" (demo_world fs) "cached"
              ltac:(vm_compute; reflexivity))
    as (Hread & _ & Hsame).
  split; [exact Hread | exact Hsame].
Defined.

(** X2. A call asks the source at most once: not at all when the cache holds
    a non-empty entry, and exactly once, for [basepath], in every other case,
    whatever the outcome. *)
Theorem getData_asks_the_source_at_most_once
    (publisher : Publisher) (b t : string) (w : World publisher) :
  w_reads (snd (getData publisher b t w)) =
    w_reads w ++ (if truthy (cached (path_join t b) (w_fs w)) then [] else [b]).
Proof.
  destruct (truthy (cached (path_join t b) (w_fs w))) eqn:Hc.
  - rewrite (getData_hit publisher b t w Hc). simpl. by rewrite app_nil_r.
  - by apply getData_miss_reads.
Qed.

(** X3. No call removes or changes an entry of the filesystem other than
    [tmpdir/basepath] itself. *)
Theorem getData_keeps_every_other_entry
    (publisher : Publisher) (b t : string) (w : World publisher)
    (q : Path) (n : Node) :
  q ≠ path_join t b →
  w_fs w !! q = Some n →
  w_fs (snd (getData publisher b t w)) !! q = Some n.
Proof.
  intros Hq Hn.
  destruct (getData_outcomes publisher b t w)
    as [-> | (fs1 & Hm & [(code & _ & ->) | (s & _ & _ & Hw)])]; [done | |].
  - destruct (mkdir_from_lookup _ _ _ _ q Hm) as [-> | [Hnone _]]; congruence.
  - apply fs_writeFile_inv in Hw as [_ ->].
    rewrite lookup_insert_ne by done.
    destruct (mkdir_from_lookup _ _ _ _ q Hm) as [-> | [Hnone _]]; congruence.
Qed.

Lemma getData_keeps_every_other_entry_witness :
  let fs : FS := <[ ["tmp"; "cache"; "other.txt"] := File "kept" ]> empty_cache in
  w_fs (snd (getData demo_publisher "a/b.txt" "/tmp/cache" (demo_world fs)))
    !! ["tmp"; "cache"; "other.txt"] = Some (File "kept").
Proof.
  intros fs.
  apply (getData_keeps_every_other_entry demo_publisher "a/b.txt" "/tmp/cache"
           (demo_world fs) ["tmp"; "cache"; "other.txt"] (File "kept")).
  - vm_compute. discriminate.
  - vm_compute. reflexivity.
Defined.

(** ** [cleanObject] and [cleanArray] *)

Lemma cleanObject_eq obj : cleanObject obj = transform obj (clean_entry cleanObject).
Proof.
  destruct obj; try reflexivity.
  simpl. generalize 0 (JObj []).
  induction s as [| c s IH]; intros i acc; simpl; [done |]. apply IH.
Qed.

Section JVal_induction.
Variable P : JVal -> Prop.
Hypothesis Hprim : forall v, isObject v = false -> P v.
Hypothesis Harr : forall items, Forall P items -> P (JArr items).
Hypothesis Hobj : forall props, Forall (fun p => P (snd p)) props -> P (JObj props).

Lemma JVal_nested_ind (v : JVal) : P v.
Proof.
  revert v. fix IH 1.
  intros [ | | | b | n | s | items | props ]; try (by apply Hprim).
  - apply Harr. induction items as [| x items IHl]; constructor; [apply IH | apply IHl].
  - apply Hobj. induction props as [| [k x] props IHl]; constructor; [apply IH | apply IHl].
Qed.
End JVal_induction.

Lemma canonical_truthy v : canonical v = true -> truthy_val v = true.
Proof. by destruct v. Qed.

Lemma set_index_Forall (Q : JVal -> Prop) i val xs :
  Q JHole -> Q val -> Forall Q xs -> Forall Q (set_index i val xs).
Proof.
  intros Hh Hv Hxs. unfold set_index. destruct (i <? length xs).
  - by apply Forall_insert.
  - apply Forall_app. split; [done |]. apply Forall_app. split.
    + by apply Forall_replicate.
    + by constructor.
Qed.

Lemma set_prop_keys k val ps :
  map fst (set_prop k val ps) =
    if bool_decide (k ∈ map fst ps) then map fst ps else map fst ps ++ [k].
Proof.
  induction ps as [| [k' v'] ps IH]; simpl; [done |].
  destruct (String.eqb k' k) eqn:Hk.
  - apply String.eqb_eq in Hk as ->. simpl.
    rewrite bool_decide_eq_true_2; [done | by left].
  - apply String.eqb_neq in Hk. simpl. rewrite IH.
    destruct (bool_decide (k ∈ map fst ps)) eqn:Hin.
    + apply bool_decide_eq_true_1 in Hin.
      rewrite bool_decide_eq_true_2; [done | by right].
    + apply bool_decide_eq_false_1 in Hin.
      rewrite bool_decide_eq_false_2; [done |].
      intros [? | ?]%elem_of_cons; congruence.
Qed.

Lemma set_prop_NoDup k val ps :
  NoDup (map fst ps) -> NoDup (map fst (set_prop k val ps)).
Proof.
  intros Hnd. rewrite set_prop_keys.
  destruct (bool_decide (k ∈ map fst ps)) eqn:Hin; [done |].
  apply bool_decide_eq_false_1 in Hin.
  apply NoDup_app. split; [done |]. split; [| apply NoDup_singleton].
  intros x Hx ->%list_elem_of_singleton. done.
Qed.

Lemma set_prop_Forall (Q : JVal -> Prop) k val ps :
  Q val -> Forall (fun p => Q (snd p)) ps ->
  Forall (fun p => Q (snd p)) (set_prop k val ps).
Proof.
  intros Hv. induction ps as [| [k' v'] ps IH]; simpl; intros Hps.
  - by constructor.
  - apply Forall_cons in Hps as [Hp Hps]. destruct (String.eqb k' k).
    + by constructor.
    + constructor; [done | by apply IH].
Qed.

Lemma set_prop_fresh k val ps :
  k ∉ map fst ps -> set_prop k val ps = ps ++ [(k, val)].
Proof.
  induction ps as [| [k' v'] ps IH]; simpl; [done |].
  intros Hk. apply not_elem_of_cons in Hk as [Hne Hk].
  destruct (String.eqb k' k) eqn:Heq.
  - apply String.eqb_eq in Heq. congruence.
  - by rewrite IH.
Qed.

(** Folding with an invariant. *)
Lemma each_index_invariant {A} (f : A -> JVal -> nat -> A) (I : A -> Prop)
    (items : list JVal) (i : nat) (acc : A) :
  I acc ->
  (forall a x j, x ∈ items -> I a -> I (f a x j)) ->
  I (each_index f items i acc).
Proof.
  revert i acc. induction items as [| x items IH]; intros i acc Hacc Hstep; simpl.
  - done.
  - apply IH.
    + apply Hstep; [by left | done].
    + intros a y j Hy. apply Hstep. by right.
Qed.

Lemma fold_left_invariant {A B} (f : A -> B -> A) (I : A -> Prop)
    (l : list B) (acc : A) :
  I acc ->
  (forall a x, x ∈ l -> I a -> I (f a x)) ->
  I (fold_left f l acc).
Proof.
  revert acc. induction l as [| x l IH]; intros acc Hacc Hstep; simpl.
  - done.
  - apply IH.
    + apply Hstep; [by left | done].
    + intros a y Hy. apply Hstep. by right.
Qed.

Lemma compact_sparse_clean xs :
  sparse_clean xs -> Forall (fun x => canonical x = true) (compact xs).
Proof.
  unfold sparse_clean, compact. induction 1 as [| x xs Hx Hxs IH]; simpl; [constructor |].
  destruct (truthy_val x) eqn:Ht; [| done].
  constructor; [| done]. destruct Hx as [-> | Hx]; [discriminate | done].
Qed.

Lemma Forall_canonical_forallb xs :
  Forall (fun x => canonical x = true) xs -> forallb canonical xs = true.
Proof. induction 1; simpl; [done |]. by apply andb_true_iff. Qed.

Lemma Forall_canonical_props_forallb (ps : list (string * JVal)) :
  Forall (fun p => canonical (snd p) = true) ps ->
  forallb (fun p => canonical (snd p)) ps = true.
Proof. induction 1; simpl; [done |]. by apply andb_true_iff. Qed.

(** What the callback keeps is clean. *)
Lemma kept_value_canonical (recurse : JVal -> JVal) (value : JVal) :
  (isObject value = true -> result_clean (recurse value)) ->
  let val := if isObject value then cleanArray (recurse value) else value in
  (if isObject value then negb (isEmpty val) else truthy_val val) = true ->
  canonical val = true.
Proof.
  intros Hrec val Hkeep. subst val.
  destruct (isObject value) eqn:Hobj.
  - specialize (Hrec eq_refl).
    destruct (recurse value) as [ | | | b | n | s | xs | ps ]; try done; simpl in *.
    + apply compact_sparse_clean in Hrec.
      destruct (compact xs) as [| y ys] eqn:Hc; [done |].
      by apply Forall_canonical_forallb.
    + destruct Hrec as [Hnd Hps]. destruct ps as [| p ps]; [done |].
      apply andb_true_iff. split.
      * by apply bool_decide_eq_true_2.
      * by apply Forall_canonical_props_forallb.
  - by destruct value.
Qed.

Lemma clean_entry_arr recurse acc value i :
  (isObject value = true -> result_clean (recurse value)) ->
  (exists xs, acc = JArr xs /\ sparse_clean xs) ->
  exists xs, clean_entry recurse acc value (Index i) = JArr xs /\ sparse_clean xs.
Proof.
  intros Hrec (xs & -> & Hxs). unfold clean_entry.
  destruct (if isObject value then _ else _) eqn:Hkeep; [| by exists xs].
  pose proof (kept_value_canonical recurse value Hrec Hkeep) as Hcan.
  simpl. eexists. split; [done |].
  apply set_index_Forall; [by left | by right | done].
Qed.

Lemma clean_entry_obj recurse acc value key :
  (isObject value = true -> result_clean (recurse value)) ->
  (exists ps, acc = JObj ps /\ props_clean ps) ->
  exists ps, clean_entry recurse acc value key = JObj ps /\ props_clean ps.
Proof.
  intros Hrec (ps & -> & Hnd & Hps). unfold clean_entry.
  destruct (if isObject value then _ else _) eqn:Hkeep; [| by exists ps].
  pose proof (kept_value_canonical recurse value Hrec Hkeep) as Hcan.
  simpl. eexists. split; [done |]. split.
  - by apply set_prop_NoDup.
  - by apply (set_prop_Forall (fun v => canonical v = true)).
Qed.

Lemma cleanObject_result_clean (v : JVal) :
  isObject v = true -> result_clean (cleanObject v).
Proof.
  induction v as [v Hv | items IH | props IH] using JVal_nested_ind;
    [congruence | |]; intros _; simpl.
  - assert (Hinv : exists xs, each_index
                (fun acc value i => clean_entry cleanObject acc value (Index i))
                items 0 (JArr []) = JArr xs /\ sparse_clean xs).
    { apply (each_index_invariant _ (fun a => exists xs, a = JArr xs /\ sparse_clean xs)).
      - exists []. split; [done | constructor].
      - intros a x j Hx Ha. apply clean_entry_arr; [| done].
        rewrite Forall_forall in IH. by apply IH. }
    destruct Hinv as (xs & -> & Hxs). done.
  - assert (Hinv : exists ps, fold_left
                (fun acc '(k, value) => clean_entry cleanObject acc value (Name k))
                props (JObj []) = JObj ps /\ props_clean ps).
    { apply (fold_left_invariant _ (fun a => exists ps, a = JObj ps /\ props_clean ps)).
      - exists []. split; [done |]. split; constructor.
      - intros a [k x] Hx Ha. apply clean_entry_obj; [| done].
        rewrite Forall_forall in IH. by apply (IH (k, x)). }
    destruct Hinv as (ps & -> & Hps). done.
Qed.

Lemma compact_all_truthy xs :
  Forall (fun x => truthy_val x = true) xs -> compact xs = xs.
Proof.
  unfold compact. induction 1 as [| x xs Hx Hxs IH]; simpl; [done |].
  by rewrite Hx, IH.
Qed.

Lemma forallb_canonical_Forall xs :
  forallb canonical xs = true -> Forall (fun x => canonical x = true) xs.
Proof.
  induction xs as [| x xs IH]; simpl; [constructor |].
  intros [Hx Hxs]%andb_true_iff. constructor; [done | by apply IH].
Qed.

Lemma cleanArray_canonical v : canonical v = true -> cleanArray v = v.
Proof.
  destruct v as [ | | | b | n | s | xs | ps ]; try done. simpl.
  destruct xs as [| x xs]; [done |]. intros Hc.
  unfold cleanArray. cbn [isArray]. f_equal. apply compact_all_truthy.
  apply forallb_canonical_Forall in Hc.
  eapply Forall_impl; [exact Hc |]. apply canonical_truthy.
Qed.

Lemma canonical_not_empty v :
  canonical v = true -> isObject v = true -> isEmpty v = false.
Proof. destruct v as [ | | | b | n | s | [| x xs] | [| p ps] ]; done. Qed.

(** A clean value is kept as it is. *)
Lemma clean_entry_canonical recurse acc value key :
  canonical value = true ->
  (isObject value = true -> recurse value = value) ->
  clean_entry recurse acc value key = assign acc key value.
Proof.
  intros Hc Hrec. unfold clean_entry.
  destruct (isObject value) eqn:Hobj.
  - rewrite (Hrec eq_refl), (cleanArray_canonical _ Hc).
    by rewrite (canonical_not_empty _ Hc Hobj).
  - by rewrite (canonical_truthy _ Hc).
Qed.

Lemma clean_entry_hole recurse acc key :
  clean_entry recurse acc JHole key = acc.
Proof. reflexivity. Qed.

Lemma set_index_append val xs n :
  set_index (length xs + n) val xs = xs ++ replicate n JHole ++ [val].
Proof.
  unfold set_index.
  replace (length xs + n <? length xs) with false
    by (symmetry; apply Nat.ltb_ge; lia).
  by replace (length xs + n - length xs) with n by lia.
Qed.

(** Cleaning a sparse array of clean values, from a given position. *)
Lemma each_index_sparse recurse items :
  Forall (fun x => x = JHole \/
                   (canonical x = true /\ (isObject x = true -> recurse x = x))) items ->
  forall xs n,
    exists ys m,
      each_index (fun acc value i => clean_entry recurse acc value (Index i))
        items (length xs + n) (JArr xs) = JArr ys /\
      xs ++ replicate n JHole ++ items = ys ++ replicate m JHole /\
      (m = 0 \/ (last items = None /\ ys = xs /\ m = n) \/ last items = Some JHole).
Proof.
  induction 1 as [| x items Hx Hitems IH]; intros xs n; simpl.
  - exists xs, n. rewrite app_nil_r. split; [done |]. split; [done |]. right. by left.
  - destruct Hx as [-> | [Hc Hrec]].
    + rewrite clean_entry_hole.
      replace (S (length xs + n)) with (length xs + S n) by lia.
      destruct (IH xs (S n)) as (ys & m & -> & Heq & Hlast).
      exists ys, m. split; [done |]. split.
      * rewrite replicate_S_end in Heq. rewrite <- !app_assoc in Heq. exact Heq.
      * destruct Hlast as [-> | [(Hl & -> & ->) | Hl]]; [by left | |].
        -- right. right. by apply last_None in Hl as ->.
        -- right. right. by rewrite last_cons, Hl.
    + rewrite (clean_entry_canonical _ _ _ _ Hc Hrec). simpl.
      rewrite set_index_append.
      set (xs' := xs ++ replicate n JHole ++ [x]).
      replace (S (length xs + n)) with (length xs' + 0)
        by (subst xs'; rewrite !length_app, length_replicate; simpl; lia).
      destruct (IH xs' 0) as (ys & m & -> & Heq & Hlast).
      exists ys, m. split; [done |]. split.
      * rewrite <- Heq. subst xs'. simpl. by rewrite <- !app_assoc.
      * destruct Hlast as [-> | [(Hl & -> & ->) | Hl]]; [by left | by left |].
        right. right. by rewrite last_cons, Hl.
Qed.

Lemma fold_props_canonical recurse ps :
  Forall (fun p : string * JVal =>
            canonical (snd p) = true /\
            (isObject (snd p) = true -> recurse (snd p) = snd p)) ps ->
  forall pre,
    NoDup (map fst (pre ++ ps)) ->
    fold_left (fun acc '(k, value) => clean_entry recurse acc value (Name k))
      ps (JObj pre) = JObj (pre ++ ps).
Proof.
  induction 1 as [| [k x] ps [Hc Hrec] Hps IH]; intros pre Hnd; simpl.
  - by rewrite app_nil_r.
  - simpl in *. rewrite (clean_entry_canonical _ _ _ _ Hc Hrec). simpl.
    rewrite set_prop_fresh.
    + rewrite IH; [by rewrite <- app_assoc | by rewrite <- app_assoc].
    + rewrite map_app in Hnd. apply NoDup_app in Hnd as (_ & Hdisj & _).
      intros Hin. apply (Hdisj k Hin). simpl. by left.
Qed.

(** A clean container is a fixed point. *)
Lemma cleanObject_canonical_id (v : JVal) :
  canonical v = true -> isObject v = true -> cleanObject v = v.
Proof.
  induction v as [v Hv | items IH | props IH] using JVal_nested_ind;
    [congruence | |]; intros Hc _.
  - simpl in Hc. destruct items as [| x0 items0] eqn:Hitems; [done |].
    rewrite <- Hitems in *. clear Hitems.
    apply forallb_canonical_Forall in Hc.
    assert (Hall : Forall (fun x => x = JHole \/
               (canonical x = true /\ (isObject x = true -> cleanObject x = x))) items).
    { rewrite Forall_forall in IH, Hc |- *. intros x Hx. right.
      split; [by apply Hc |]. intros Hobj. apply IH; [done | by apply Hc | done]. }
    destruct (each_index_sparse cleanObject items Hall [] 0)
      as (ys & m & Hrun & Heq & Hlast).
    simpl in Hrun, Heq. simpl. rewrite Hrun. f_equal.
    destruct Hlast as [-> | [(Hl & -> & ->) | Hl]].
    + by rewrite app_nil_r in Heq.
    + by rewrite app_nil_r in Heq.
    + apply last_Some in Hl as [l' ->].
      rewrite Forall_forall in Hc.
      assert (canonical JHole = true) by (apply Hc; set_solver). done.
  - simpl in Hc. destruct props as [| p0 props0] eqn:Hprops; [done |].
    rewrite <- Hprops in *. clear Hprops.
    apply andb_true_iff in Hc as [Hnd Hc]. apply bool_decide_eq_true_1 in Hnd.
    simpl. apply (fold_props_canonical cleanObject props); [| done].
    clear Hnd. induction props as [| [k x] props IHp]; [constructor |].
    simpl in Hc. apply andb_true_iff in Hc as [Hx Hc].
    apply Forall_cons in IH as [IHx IH].
    constructor; [| by apply IHp]. simpl. split; [done |]. intros Hobj. by apply IHx.
Qed.

Lemma last_set_index i val xs :
  val <> JHole -> last xs <> Some JHole -> last (set_index i val xs) <> Some JHole.
Proof.
  intros Hv Hl. unfold set_index. destruct (i <? length xs) eqn:Hi.
  - apply Nat.ltb_lt in Hi. rewrite last_lookup, length_insert.
    destruct (decide (i = pred (length xs))) as [-> | Hne].
    + rewrite list_lookup_insert_eq by lia. congruence.
    + rewrite list_lookup_insert_ne by done. by rewrite <- last_lookup.
  - rewrite !app_assoc, last_snoc. congruence.
Qed.

Lemma cleanObject_array_last (items : list JVal) :
  exists xs, cleanObject (JArr items) = JArr xs /\ last xs <> Some JHole.
Proof.
  simpl.
  apply (each_index_invariant _ (fun a => exists xs, a = JArr xs /\ last xs <> Some JHole)).
  - by exists [].
  - intros a x j _ (xs & -> & Hl). unfold clean_entry.
    destruct (if isObject x then _ else _) eqn:Hkeep; [| by exists xs].
    assert (Hcan := kept_value_canonical cleanObject x
                      (fun Hobj => cleanObject_result_clean x Hobj) Hkeep).
    simpl. eexists. split; [done |].
    apply last_set_index; [| done]. intros Heq. by rewrite Heq in Hcan.
Qed.




(** X7. Cleaning twice is cleaning once: on every array or object
    [cleanObject] returns a value on which it changes nothing more. *)
Theorem cleanObject_idempotent (v : JVal) :
  isObject v = true -> cleanObject (cleanObject v) = cleanObject v.
Proof.
  intros Hobj. pose proof (cleanObject_result_clean v Hobj) as Hres.
  destruct v as [ | | | b | n | s | items | props ]; try done.
  - destruct (cleanObject_array_last items) as (xs & Hxs & Hl).
    rewrite Hxs in Hres |- *. simpl in Hres.
    assert (Hall : Forall (fun x => x = JHole \/
               (canonical x = true /\ (isObject x = true -> cleanObject x = x))) xs).
    { eapply Forall_impl; [exact Hres |]. intros x [-> | Hc]; [by left |].
      right. split; [done |]. by apply cleanObject_canonical_id. }
    destruct (each_index_sparse cleanObject xs Hall [] 0)
      as (ys & m & Hrun & Heq & Hlast).
    simpl in Hrun, Heq. simpl. rewrite Hrun. f_equal.
    destruct Hlast as [-> | [(_ & -> & ->) | Hl']]; [| | done];
      by rewrite app_nil_r in Heq.
  - destruct (cleanObject (JObj props)) as [ | | | b | n | s | xs | ps ] eqn:Hps;
      try done.
    + exfalso. revert Hps. simpl.
      apply (fold_left_invariant _ (fun a => a <> JArr xs)); [done |].
      intros a [k x] _ Ha. unfold clean_entry.
      destruct (if isObject x then _ else _); [| done].
      destruct a; try done.
    + destruct Hres as [Hnd Hc]. simpl.
      apply (fold_props_canonical cleanObject ps); [| done].
      eapply Forall_impl; [exact Hc |]. intros p Hp. split; [done |].
      by apply cleanObject_canonical_id.
Qed.













Lemma cleanObject_idempotent_witness :
  let v := JObj [("a", JNum 0);
                 ("b", JArr [JNull; JStr "x"; JObj []]);
                 ("c", JObj [("d", JStr EmptyString)]);
                 ("e", JStr "y")] in
  cleanObject v = JObj [("b", JArr [JStr "x"]); ("e", JStr "y")] /\
  cleanObject (cleanObject v) = cleanObject v.
Proof.
  intros v. split; [vm_compute; reflexivity |].
  apply (cleanObject_idempotent v). reflexivity.
Defined.



(** ** [decodeFormEncodedString] *)

Lemma decodeURIComponent_literal (c : ascii) (r : string) :
  Ascii.eqb c "%" = false ->
  decodeURIComponent (String c r) = option_map (String c) (decodeURIComponent r).
Proof.
  intros Hc. unfold decodeURIComponent. simpl. rewrite Hc.
  by destruct (percent_units r).
Qed.

Lemma decodeURIComponent_ascii_escape (h1 h2 : ascii) (a b : nat) (r : string) :
  hex_value h1 = Some a -> hex_value h2 = Some b -> 16 * a + b < 128 ->
  decodeURIComponent (String "%" (String h1 (String h2 r)))
  = option_map (String (ascii_of_nat (16 * a + b))) (decodeURIComponent r).
Proof.
  intros H1 H2 Hlt. unfold decodeURIComponent.
  cbn [percent_units]. rewrite Ascii.eqb_refl, H1, H2. 
  destruct (percent_units r) as [us |]; [| done].
  cbn [option_map utf8_units].
  rewrite nat_ascii_embedding by lia.
  by replace (16 * a + b <? 128) with true by (symmetry; apply Nat.ltb_lt; lia).
Qed.

Lemma decode_replace_plus_no_percent (s : string) :
  has_char "%" s = false ->
  decodeURIComponent (replace_plus s) = Some (plus_to_space s).
Proof.
  induction s as [| c s IH]; simpl; [done |].
  intros [Hc Hs]%orb_false_iff.
  destruct (Ascii.eqb c "+") eqn:Hplus.
  - rewrite (decodeURIComponent_ascii_escape "2" "0" 2 0) by (done || (simpl; lia)).
    by rewrite (IH Hs).
  - rewrite (decodeURIComponent_literal c _ Hc). by rewrite (IH Hs).
Qed.

(** X10. A string without [%] is decoded to itself with every [+] turned
    into a space; nothing is thrown. *)
Theorem decode_without_escapes (s : string) :
  has_char "%" s = false ->
  decodeFormEncodedString (JStr s) = Returned (JStr (plus_to_space s)).
Proof. intros Hs. simpl. by rewrite decode_replace_plus_no_percent. Qed.

Lemma hex_digit_value (k : nat) : k < 16 -> hex_value (hex_digit k) = Some k.
Proof.
  intros Hk. do 16 (destruct k as [| k]; [reflexivity |]). lia.
Qed.

Lemma replace_plus_plus (r : string) :
  replace_plus (String "+" r) = String "%" (String "2" (String "0" (replace_plus r))).
Proof. reflexivity. Qed.

Lemma replace_plus_other (c : ascii) (r : string) :
  Ascii.eqb c "+" = false -> replace_plus (String c r) = String c (replace_plus r).
Proof. intros Hc. simpl. by rewrite Hc. Qed.

Lemma hex_digit_not_plus (k : nat) : k < 16 -> Ascii.eqb (hex_digit k) "+" = false.
Proof. intros Hk. do 16 (destruct k as [| k]; [reflexivity |]). lia. Qed.

Lemma decode_form_encoded_char (keep : ascii -> bool) (c : ascii) (r : string) :
  keep "%"%char = false -> keep "+"%char = false ->
  nat_of_ascii c < 128 ->
  decodeURIComponent (replace_plus (formEncode keep (String c r)))
  = option_map (String c) (decodeURIComponent (replace_plus (formEncode keep r))).
Proof.
  intros Hpct Hplus Hc. cbn [formEncode].
  destruct (Ascii.eqb c " ") eqn:Hsp.
  - apply Ascii.eqb_eq in Hsp as ->. rewrite replace_plus_plus.
    by rewrite (decodeURIComponent_ascii_escape "2" "0" 2 0) by (done || (simpl; lia)).
  - destruct (keep c) eqn:Hk.
    + assert (Hnp : Ascii.eqb c "+" = false).
      { apply Ascii.eqb_neq. intros ->. congruence. }
      assert (Hnq : Ascii.eqb c "%" = false).
      { apply Ascii.eqb_neq. intros ->. congruence. }
      rewrite (replace_plus_other _ _ Hnp). by apply decodeURIComponent_literal.
    + set (n := nat_of_ascii c) in *.
      assert (Hq : n / 16 < 16) by (apply Nat.Div0.div_lt_upper_bound; lia).
      assert (Hr : n mod 16 < 16) by (apply Nat.mod_upper_bound; lia).
      rewrite (replace_plus_other "%") by reflexivity.
      rewrite (replace_plus_other _ _ (hex_digit_not_plus _ Hq)).
      rewrite (replace_plus_other _ _ (hex_digit_not_plus _ Hr)).
      rewrite (decodeURIComponent_ascii_escape _ _ _ _ _
                 (hex_digit_value _ Hq) (hex_digit_value _ Hr)).
      * replace (16 * (n / 16) + n mod 16) with n
          by (rewrite (Nat.div_mod_eq n 16) at 1; lia).
        subst n. by rewrite ascii_nat_embedding.
      * rewrite <- (Nat.div_mod_eq n 16). lia.
Qed.

(** X11. Decoding undoes form encoding: for ASCII text encoded with spaces
    as [+] and any choice of characters left unescaped, as long as [%] and
    [+] are escaped, the call returns the text. *)
Theorem decode_form_encoded (keep : ascii -> bool) (s : string) :
  keep "%"%char = false -> keep "+"%char = false ->
  is_ascii s = true ->
  decodeFormEncodedString (JStr (formEncode keep s)) = Returned (JStr s).
Proof.
  intros Hpct Hplus Hs. simpl.
  assert (H : decodeURIComponent (replace_plus (formEncode keep s)) = Some s);
    [| by rewrite H].
  induction s as [| c s IH]; [done |].
  unfold is_ascii in Hs. simpl in Hs. apply andb_true_iff in Hs as [Hc Hs].
  apply Nat.ltb_lt in Hc.
  rewrite (decode_form_encoded_char keep c s Hpct Hplus Hc).
  by rewrite (IH Hs).
Qed.

Lemma replace_plus_app (a b : string) :
  replace_plus (a +:+ b) = replace_plus a +:+ replace_plus b.
Proof.
  induction a as [| c a IH]; simpl; [done |].
  destruct (Ascii.eqb c "+"); simpl; by rewrite IH.
Qed.

Lemma hex_value_lt (h : ascii) (a : nat) : hex_value h = Some a -> a < 16.
Proof.
  unfold hex_value.
  repeat match goal with
         | |- context [if ?b then _ else _] => destruct b eqn:?
         end; intros [= <-];
    repeat match goal with
           | H : (_ && _) = true |- _ => apply andb_true_iff in H as [? ?]
           | H : (_ <=? _) = true |- _ => apply Nat.leb_le in H
           end; lia.
Qed.

Lemma hex_value_not_plus (h : ascii) (a : nat) :
  hex_value h = Some a -> Ascii.eqb h "+" = false.
Proof. intros Hh. apply Ascii.eqb_neq. intros ->. discriminate Hh. Qed.

Lemma bad_escape_replace_plus (b : string) :
  bad_escape b = true -> bad_escape (replace_plus b) = true.
Proof.
  destruct b as [| h1 [| h2 b]]; simpl; try done.
  - by destruct (Ascii.eqb h1 "+").
  - destruct (Ascii.eqb h1 "+") eqn:H1; [done |].
    destruct (Ascii.eqb h2 "+") eqn:H2; simpl.
    + by destruct (hex_value h1).
    + done.
Qed.

Lemma percent_units_bad (b : string) :
  bad_escape b = true ->
  forall n a, String.length a <= n -> percent_units (a +:+ String "%" b) = None.
Proof.
  intros Hb.
  assert (Hhere : percent_units (String "%" b) = None).
  { simpl. destruct b as [| h1 [| h2 b]]; try done. simpl in Hb.
    by destruct (hex_value h1), (hex_value h2). }
  induction n as [| n IH]; intros a Ha.
  - destruct a; [done | simpl in Ha; lia].
  - destruct a as [| c a]; [done |].
    simpl in Ha.
    change (String c a +:+ String "%" b) with (String c (a +:+ String "%" b)).
    cbn [percent_units].
    destruct (Ascii.eqb c "%").
    + destruct a as [| h1 [| h2 a]].
      * change (percent_units (String "%" b)) with (percent_units (String "%" b)).
        simpl. destruct b as [| h2' b']; [done |].
        by replace (hex_value "%") with (@None nat) by reflexivity.
      * simpl. replace (hex_value "%") with (@None nat) by reflexivity.
        by destruct (hex_value h1).
      * change (String h1 (String h2 a) +:+ String "%" b)
          with (String h1 (String h2 (a +:+ String "%" b))).
        cbn iota.
        destruct (hex_value h1), (hex_value h2); try done.
        rewrite IH; [done | simpl in Ha; lia].
    + rewrite IH; [done | lia].
Qed.

(** X12. A [%] that is not followed by two hexadecimal digits makes the
    call throw a URIError, wherever in the string it stands. *)
Theorem decode_malformed_escape (a b : string) :
  bad_escape b = true ->
  decodeFormEncodedString (JStr (a +:+ String "%" b)) = URIError.
Proof.
  intros Hb. unfold decodeFormEncodedString, decodeURIComponent.
  rewrite replace_plus_app.
  rewrite (replace_plus_other "%") by reflexivity.
  by rewrite (percent_units_bad _ (bad_escape_replace_plus b Hb)
                (String.length (replace_plus a)) (replace_plus a)).
Qed.

Lemma units_no_continuation (rest : string) (us : list CodeUnit) :
  no_escape_ahead rest = true ->
  percent_units (replace_plus rest) = Some us ->
  match us with
  | [] => True
  | u :: _ => forall lo hi, 128 <= lo -> esc_in lo hi u = false
  end.
Proof.
  destruct rest as [| c rest]; simpl.
  - by intros _ [= <-].
  - intros Hc%negb_true_iff. destruct (Ascii.eqb c "+") eqn:Hplus.
    + cbn [percent_units]. rewrite Ascii.eqb_refl.
      replace (hex_value "2") with (Some 2) by reflexivity.
      replace (hex_value "0") with (Some 0) by reflexivity.
      destruct (percent_units (replace_plus rest)); intros [= <-].
      intros lo hi Hlo. unfold esc_in.
      apply andb_false_iff. left. apply Nat.leb_gt.
      rewrite nat_ascii_embedding by lia. lia.
    + cbn [percent_units]. rewrite Hc.
      destruct (percent_units (replace_plus rest)); intros [= <-]. done.
Qed.

(** X13. An escape of an octet of 128 and above that is not followed by
    another escape is no UTF-8: a string that starts with one makes the call
    throw a URIError. *)
Theorem decode_lone_high_escape (h1 h2 : ascii) (a b : nat) (rest : string) :
  hex_value h1 = Some a -> hex_value h2 = Some b -> 8 <= a ->
  no_escape_ahead rest = true ->
  decodeFormEncodedString (JStr (String "%" (String h1 (String h2 rest)))) = URIError.
Proof.
  intros H1 H2 Ha Hrest. unfold decodeFormEncodedString, decodeURIComponent.
  rewrite (replace_plus_other "%") by reflexivity.
  rewrite (replace_plus_other _ _ (hex_value_not_plus _ _ H1)).
  rewrite (replace_plus_other _ _ (hex_value_not_plus _ _ H2)).
  cbn [percent_units]. rewrite Ascii.eqb_refl, H1, H2.
  destruct (percent_units (replace_plus rest)) as [us |] eqn:Hus; [| done].
  pose proof (units_no_continuation rest us Hrest Hus) as Hno.
  pose proof (hex_value_lt _ _ H1). pose proof (hex_value_lt _ _ H2).
  cbn [option_map utf8_units].
  rewrite nat_ascii_embedding by lia.
  replace (16 * a + b <? 128) with false by (symmetry; apply Nat.ltb_ge; lia).
  destruct us as [| u1 us].
  - by repeat match goal with |- context [if ?c then _ else _] => destruct c end.
  - assert (He : forall lo hi, 128 <= lo -> esc_in lo hi u1 = false) by exact Hno.
    repeat match goal with
           | |- context [esc_in ?lo ?hi u1] =>
               rewrite (He lo hi) by (repeat case_match; lia)
           end.
    simpl.
    by repeat match goal with
              | |- context [if ?c then _ else _] => destruct c
              | |- context [match ?l with [] => _ | _ :: _ => _ end] => destruct l
              end.
Qed.


Lemma decode_without_escapes_witness :
  decodeFormEncodedString (JStr "foo+bar") = Returned (JStr "foo bar").
Proof. apply (decode_without_escapes "foo+bar"). reflexivity. Defined.

Lemma decode_form_encoded_witness :
  formEncode alphanumeric "http://foo.bar/a b+c" = "http%3A%2F%2Ffoo%2Ebar%2Fa+b%2Bc" /\
  decodeFormEncodedString (JStr (formEncode alphanumeric "http://foo.bar/a b+c"))
    = Returned (JStr "http://foo.bar/a b+c").
Proof.
  split; [vm_compute; reflexivity |].
  apply (decode_form_encoded alphanumeric "http://foo.bar/a b+c"); reflexivity.
Defined.

Lemma decode_malformed_escape_witness :
  decodeFormEncodedString (JStr ("100" +:+ String "%" " sure")) = URIError.
Proof. apply (decode_malformed_escape "100" " sure"). reflexivity. Defined.

Lemma decode_lone_high_escape_witness :
  decodeFormEncodedString (JStr (String "%" (String "E" (String "9" "t%C3%A9")))) = URIError.
Proof.
  apply (decode_lone_high_escape "E" "9" 14 9 "t%C3%A9"); try reflexivity.
  vm_compute. lia.
Defined.


(** ** [addToArray] *)

(** X14. Adding values one after the other collects them in order: starting
    from an array they are appended to its elements, starting from a missing
    or otherwise falsy value they make up a new array, and starting from a
    truthy value that is no array the first call throws a TypeError. *)
Theorem addAllToArray_collects :
  (forall items datas,
      addAllToArray (JArr items) datas = inr (JArr (items ++ datas))) /\
  (forall arr data datas,
      truthy_val arr = false ->
      addAllToArray arr (data :: datas) = inr (JArr (data :: datas))) /\
  (forall arr data datas,
      truthy_val arr = true -> isArray arr = false ->
      exists msg, addAllToArray arr (data :: datas) = inl (TypeError msg)).
Proof.
  assert (Harr : forall datas items,
             addAllToArray (JArr items) datas = inr (JArr (items ++ datas))).
  { induction datas as [| data datas IH]; intros items; simpl.
    - by rewrite app_nil_r.
    - rewrite IH. by rewrite <- app_assoc. }
  split; [intros items datas; apply Harr |]. split.
  - intros arr data datas Hf. simpl. unfold addToArray. rewrite Hf. simpl.
    by rewrite Harr.
  - intros arr data datas Ht Ha. simpl. unfold addToArray. rewrite Ht. simpl.
    destruct arr; try done; by eexists.
Qed.

Lemma addAllToArray_collects_witness :
  addAllToArray JUndefined [JStr "a"; JNum 2] = inr (JArr [JStr "a"; JNum 2]) /\
  exists msg, addAllToArray (JStr "abc") [JStr "a"] = inl (TypeError msg).
Proof.
  destruct addAllToArray_collects as (_ & Hfalsy & Hthrow).
  split.
  - apply (Hfalsy JUndefined (JStr "a") [JNum 2]). reflexivity.
  - apply (Hthrow (JStr "abc") (JStr "a") []); reflexivity.
Defined.
